(** * ESG metrics dashboard: the computations of [app.py]

    [app.py] is a Streamlit page over one CSV table.  Everything it computes
    is a pandas / numpy call on the loaded frame:

    - [load_data]             : [pd.read_csv('data.csv')], memoised by
                                [@st.cache_data];
    - [calculate_statistics]  : per score column [mean], [median] and
                                [nlargest(3, col)];
    - the ranking chart       : [sort_values(by=col, ascending=True).tail(15)];
    - the scatter plot        : [Series.corr] and [np.polyfit(x, y, 1)];
    - the data table          : [str.contains(search, case=False)].

    The embedding below follows these calls, each library call being given
    the behaviour its documentation states.

    - The frame is the list of its rows, in file order.  The 会社名 column
      holds strings, the seven other columns floating-point numbers.
    - Numeric cells are embedded twice.  Where the code compares, selects
      and counts cells (which cells are missing, [nlargest], [sort_values],
      which exception a call raises), a cell is an exact rational ([Q]) or
      NaN, which is how pandas represents a missing cell.  Where the result
      is a number produced by float64 arithmetic ([mean], [median],
      [corr]), module [Float64] performs the same operations, in the order
      pandas and numpy perform them, on IEEE binary64 numbers.  The
      rational-valued [mean], [median], [corrcoef] and [lstsq_line] give the
      value the computation has in exact arithmetic; the square root of the
      Pearson formula, which has no rational counterpart, is a parameter
      there.
    - Company names and search patterns are byte strings.  The pattern
      matching is that of Python on ASCII text. *)

From Stdlib Require Import Floats.
From Stdlib Require Import String Ascii List Bool Arith ZArith QArith Lia.
From Stdlib Require Import Permutation Sorted Lqa QNsatz.
Import ListNotations.

Set Warnings "-inexact-float".

Local Open Scope Q_scope.

(** ** Cells, rows and the frame *)

(** A numeric cell of the frame: a number, or NaN for a missing value. *)
Definition cell : Type := option Q.
Definition NaN : cell := None.

Definition notna (c : cell) : bool :=
  match c with Some _ => true | None => false end.

(** Two cells hold the same value. *)
Definition cell_eq (a b : cell) : Prop :=
  match a, b with
  | Some x, Some y => x == y
  | None, None => True
  | _, _ => False
  end.

(** The numeric columns of [data.csv].  The header names are
    総合スコア, 環境スコア, 社会スコア, ガバナンススコア,
    [PE Ratio (TTM)], [Price/Book] and [Enterprise Value/EBITDA]. *)
Inductive column : Type :=
| overall_score | environmental_score | social_score | governance_score
| pe_ratio_ttm | price_to_book | ev_to_ebitda.

Definition column_eqb (a b : column) : bool :=
  match a, b with
  | overall_score, overall_score
  | environmental_score, environmental_score
  | social_score, social_score
  | governance_score, governance_score
  | pe_ratio_ttm, pe_ratio_ttm
  | price_to_book, price_to_book
  | ev_to_ebitda, ev_to_ebitda => true
  | _, _ => false
  end.

(** One row of the table; [company] is the 会社名 column. *)
Record Row : Type := mkRow {
  company : string;
  overall : cell;
  environmental : cell;
  social : cell;
  governance : cell;
  pe_ratio : cell;
  price_book : cell;
  ev_ebitda : cell
}.

(** The frame: rows in file order. *)
Definition Dataset : Type := list Row.

(** [row[col]] *)
Definition get (col : column) (r : Row) : cell :=
  match col with
  | overall_score => overall r
  | environmental_score => environmental r
  | social_score => social r
  | governance_score => governance r
  | pe_ratio_ttm => pe_ratio r
  | price_to_book => price_book r
  | ev_to_ebitda => ev_ebitda r
  end.

(** [df[col]] *)
Definition series (df : Dataset) (col : column) : list cell :=
  map (get col) df.

(** ** Series.mean and Series.median (skipna=True) *)

Definition fillna0 (c : cell) : Q :=
  match c with Some q => q | None => 0 end.

Fixpoint dropna (l : list cell) : list Q :=
  match l with
  | [] => []
  | Some q :: t => q :: dropna t
  | None :: t => dropna t
  end.

Definition Qsum (l : list Q) : Q := fold_right Qplus 0 l.

(** [nanops.nanmean] in exact arithmetic: the missing cells are replaced by 0
    and summed with the rest, and the sum is divided by the number of cells
    that are not missing; with none left the result is NaN.  The float64
    value is [Float64.mean]. *)
Definition mean (l : list cell) : cell :=
  let count := length (filter notna l) in
  if Nat.eqb count 0 then NaN
  else Some (Qsum (map fillna0 l) / inject_Z (Z.of_nat count)).

Fixpoint Qinsert (x : Q) (l : list Q) : list Q :=
  match l with
  | [] => [x]
  | y :: t => if Qle_bool x y then x :: l else y :: Qinsert x t
  end.

Definition Qsort (l : list Q) : list Q := fold_right Qinsert [] l.

(** [nanops.nanmedian] in exact arithmetic: the median of the values that
    are not missing (the middle one, or the mean of the two middle ones).
    The float64 value is [Float64.median]. *)
Definition median (l : list cell) : cell :=
  let v := Qsort (dropna l) in
  let n := length v in
  if Nat.eqb n 0 then NaN
  else if Nat.even n
       then Some ((nth (n / 2 - 1) v 0 + nth (n / 2) v 0) / 2)
       else Some (nth (n / 2) v 0).

(** ** DataFrame.nlargest(n, col)  (keep='first') *)

(** [a] ranks strictly below [b]; a missing value ranks below every number
    (pandas puts NaN last in a descending order). *)
Definition cell_ltb (a b : cell) : bool :=
  match a, b with
  | None, None => false
  | None, Some _ => true
  | Some _, None => false
  | Some x, Some y => negb (Qle_bool y x)
  end.

(** [a] ranks at least as high as [b]. *)
Definition cell_geb (a b : cell) : bool := negb (cell_ltb a b).

(** [a] and [b] tie. *)
Definition cell_tie (a b : cell) : bool := cell_geb a b && cell_geb b a.

Section SortDescending.
Variable col : column.

(** [x] came before every row of [l] in the frame: it goes in front of the
    first row that does not rank strictly above it. *)
Fixpoint insert_desc (x : Row) (l : list Row) : list Row :=
  match l with
  | [] => [x]
  | y :: t =>
      if cell_ltb (get col x) (get col y) then y :: insert_desc x t
      else x :: l
  end.

(** Descending by [col], equal values in frame order, NaN last. *)
Definition sort_desc (df : Dataset) : Dataset := fold_right insert_desc [] df.
End SortDescending.

(** [df.nlargest(n, col)]: the first [n] rows in descending order of [col].
    [keep] is left at its default ['first']: among equal values the first
    occurrences are kept, in frame order.  Rows with a missing value come
    after every row that has one. *)
Definition nlargest (n : nat) (col : column) (df : Dataset) : Dataset :=
  firstn n (sort_desc col df).

(** [r] ranks at least as high as [s] in column [col]. *)
Definition desc_ge (col : column) (r s : Row) : Prop :=
  cell_geb (get col r) (get col s) = true.

(** The rows whose value ties with [v]. *)
Definition ties_with (col : column) (v : cell) (r : Row) : bool :=
  cell_tie (get col r) v.

(** ** calculate_statistics *)

Definition score_columns : list column :=
  [overall_score; environmental_score; social_score; governance_score].

(** The three entries [f'{col}_avg'], [f'{col}_median'] and [f'{col}_top']
    that the loop stores for one column. *)
Record col_stats : Type := mkStats {
  stat_avg : cell;
  stat_median : cell;
  stat_top : list string
}.

Definition column_statistics (df : Dataset) (col : column) : col_stats :=
  {| stat_avg := mean (series df col);
     stat_median := median (series df col);
     stat_top := map company (nlargest 3 col df) |}.

(** The [stats] dictionary, in the order the loop fills it. *)
Definition calculate_statistics (df : Dataset) : list (column * col_stats) :=
  map (fun col => (col, column_statistics df col)) score_columns.

(** [stats[...]] for the entries of column [col]; [None] is a KeyError. *)
Fixpoint stats_lookup (stats : list (column * col_stats)) (col : column)
  : option col_stats :=
  match stats with
  | [] => None
  | (c, s) :: t => if column_eqb c col then Some s else stats_lookup t col
  end.

(** ** The ranking chart: sort_values(by=col, ascending=True).tail(15) *)

(** [a] may stand before [b] in ascending order; missing values go last
    ([na_position='last']). *)
Definition asc_leb (a b : cell) : bool :=
  match a, b with
  | _, None => true
  | None, Some _ => false
  | Some x, Some y => Qle_bool x y
  end.

Definition asc_le (col : column) (r s : Row) : Prop :=
  asc_leb (get col r) (get col s) = true.

(** The row has a value in column [col]. *)
Definition present_in (col : column) (r : Row) : bool := notna (get col r).

Definition missing_in (col : column) (r : Row) : bool :=
  negb (notna (get col r)).

(** [df.sort_values(by=col, ascending=True)].  pandas ([nargsort]) sorts the
    values that are present with [argsort(kind)] and appends the rows with a
    missing value, in frame order.  [kind] is left at its default
    ['quicksort'], which pandas documents as not stable ("mergesort and
    stable are the only stable algorithms"): the rows with a value come out
    in ascending order, and the order among rows with equal values is
    whatever the sort leaves.  The call is therefore a relation between the
    frame and its possible results. *)
Definition sort_values (col : column) (df sorted : Dataset) : Prop :=
  exists present,
    Permutation (filter (present_in col) df) present /\
    StronglySorted (asc_le col) present /\
    sorted = present ++ filter (missing_in col) df.

(** [df.tail(n)] *)
Definition tail {A : Type} (n : nat) (l : list A) : list A :=
  skipn (length l - n) l.

(** [df.sort_values(by=col, ascending=True).tail(limit)] *)
Definition rank (df : Dataset) (col : column) (limit : nat) (out : Dataset)
  : Prop :=
  exists sorted, sort_values col df sorted /\ out = tail limit sorted.

(** The rows of the ranking chart ([sorted_data]). *)
Definition ranking_rows (df : Dataset) (selected : column) (out : Dataset)
  : Prop :=
  rank df selected 15 out.

(** A stable ascending sort, the one the specification describes: a row goes
    behind every row that came before it and does not rank above it. *)
Fixpoint insert_asc (col : column) (x : Row) (l : list Row) : list Row :=
  match l with
  | [] => [x]
  | y :: t =>
      if asc_leb (get col x) (get col y) then x :: l
      else y :: insert_asc col x t
  end.

Definition stable_sort_asc (col : column) (df : Dataset) : Dataset :=
  fold_right (insert_asc col) [] df.

(** The ranking as the specification words it: stable sort, last [limit]. *)
Definition rank_stable (df : Dataset) (col : column) (limit : nat) : Dataset :=
  tail limit (stable_sort_asc col df).

(** ** The scatter plot: Series.corr and np.polyfit *)

(** The rows in which both cells are present ([valid = notna(a) & notna(b)]
    in [nanops.nancorr]). *)
Fixpoint complete_pairs (a b : list cell) : list (Q * Q) :=
  match a, b with
  | x :: a', y :: b' =>
      match x, y with
      | Some p, Some q => (p, q) :: complete_pairs a' b'
      | _, _ => complete_pairs a' b'
      end
  | _, _ => []
  end.

Definition Qmean (l : list Q) : Q := Qsum l / inject_Z (Z.of_nat (length l)).

(** Sum of the products of the deviations from [mx] and [my]. *)
Definition dev_dot (mx my : Q) (p : list (Q * Q)) : Q :=
  Qsum (map (fun xy => (fst xy - mx) * (snd xy - my)) p).

Definition clip (r : Q) : Q :=
  if Qle_bool r (-1) then -1 else if Qle_bool 1 r then 1 else r.

Section Pearson.
(** The square root, positive on positive numbers. *)
Variable sqrt : Q -> Q.

(** [np.corrcoef(a, b)[0, 1]] on the retained pairs, in exact arithmetic.
    The covariance matrix is normalised by [n - 1]: with one pair this is a
    division by zero and every entry is NaN.  A zero variance gives 0/0,
    again NaN.  The entry is divided by the first standard deviation, then by
    the second, and clipped to [-1, 1].  The float64 value is
    [Float64.corrcoef]. *)
Definition corrcoef (p : list (Q * Q)) : cell :=
  let n := length p in
  if Nat.leb n 1 then NaN
  else
    let mx := Qmean (map fst p) in
    let my := Qmean (map snd p) in
    let fact := inject_Z (Z.of_nat (n - 1)) in
    let c00 := dev_dot mx mx (map (fun xy => (fst xy, fst xy)) p) / fact in
    let c11 := dev_dot my my (map (fun xy => (snd xy, snd xy)) p) / fact in
    let c01 := dev_dot mx my p / fact in
    if Qeq_bool c00 0 || Qeq_bool c11 0 then NaN
    else Some (clip (c01 / sqrt c00 / sqrt c11)).

(** [a.corr(b)]: Pearson, [min_periods] left at its default.  No pair left
    gives NaN before [corrcoef] is reached. *)
Definition corr (a b : list cell) : cell :=
  let p := complete_pairs a b in
  if Nat.ltb (length p) 1 then NaN else corrcoef p.

(** [correlation = df[x].corr(df[y])] *)
Definition correlation (df : Dataset) (x y : column) : cell :=
  corr (series df x) (series df y).
End Pearson.

(** Exceptions that leave the calls modelled here. *)
Inductive exn : Type :=
| FileNotFoundError
| TypeError
| LinAlgError.

Inductive outcome (A : Type) : Type :=
| Ok (a : A)
| Raise (e : exn).
Arguments Ok {A} a.
Arguments Raise {A} e.

(** What [np.polyfit(x, y, 1)] hands back: the coefficients of a line, or
    [NoLine] when the two coefficients are NaN. *)
Inductive trend : Type :=
| Line (slope intercept : Q)
| NoLine.

Fixpoint all_present (l : list cell) : option (list Q) :=
  match l with
  | [] => Some []
  | Some q :: t => option_map (cons q) (all_present t)
  | None :: t => None
  end.

(** The least-squares line through points without missing values, in exact
    arithmetic (the coefficients numpy returns are float64 approximations of
    these).
    [polyfit] scales the two columns of the Vandermonde matrix to unit norm
    and takes the minimum-norm least-squares solution:
    - when the abscissas are not all equal this is the ordinary
      least-squares line;
    - when they are all equal to [c <> 0] the matrix has rank 1 and the
      minimum-norm solution is [slope = my / (2c)], [intercept = my / 2];
    - when they are all 0 the first column has norm 0 and the scaling
      divides 0 by 0: there is no line ([polyfit1] raises before it gets
      here). *)
Definition lstsq_line (xs ys : list Q) : trend :=
  let mx := Qmean xs in
  let my := Qmean ys in
  let p := combine xs ys in
  let sxx := dev_dot mx mx (map (fun xy => (fst xy, fst xy)) p) in
  let sxy := dev_dot mx my p in
  if Qeq_bool sxx 0 then
    if Qeq_bool mx 0 then NoLine
    else Line (my / (2 * mx)) (my / 2)
  else
    let slope := sxy / sxx in
    Line slope (my - slope * mx).

Definition all_zero (xs : list Q) : bool :=
  forallb (fun q => Qeq_bool q 0) xs.

(** [np.polyfit(x, y, 1)]: the two columns are passed as they are.
    - An empty [x], or columns of different lengths: [TypeError].
    - The Vandermonde matrix of [x] is scaled column by column and handed to
      [lstsq].  A NaN in [x] is a NaN in the matrix; when every [x] is 0 the
      first column has norm 0 and the scaling fills it with 0/0.  Either
      way the SVD of [lstsq] does not converge: [LinAlgError].
    - A NaN in [y] alone goes through [lstsq] and comes back as two NaN
      coefficients. *)
Definition polyfit1 (x y : list cell) : outcome trend :=
  match x with
  | [] => Raise TypeError     (* expected non-empty vector for x *)
  | _ :: _ =>
      if negb (Nat.eqb (length x) (length y)) then Raise TypeError
      else
        match all_present x with
        | None => Raise LinAlgError
        | Some xs =>
            if all_zero xs then Raise LinAlgError
            else
              match all_present y with
              | Some ys => Ok (lstsq_line xs ys)
              | None => Ok NoLine
              end
        end
  end.

(** The trend line of the scatter plot. *)
Definition trend_line (df : Dataset) (x y : column) : outcome trend :=
  polyfit1 (series df x) (series df y).


(** The line the specification describes: fitted to the rows in which both
    values are present. *)
Definition trend_of_complete_rows (df : Dataset) (x y : column) : trend :=
  let p := complete_pairs (series df x) (series df y) in
  lstsq_line (map fst p) (map snd p).



(** ** float64: [mean], [median] and [corr] on IEEE binary64 numbers *)

(** The numeric columns as pandas holds them: arrays of float64, a missing
    cell being NaN.  The operations are those of the processor ([+], [*],
    [/], [sqrt], each rounded to nearest even), applied in the order in which
    pandas and numpy apply them.

    - The sign of a sum that is zero is not followed (numpy starts its
      accumulators at 0 or at -0, depending on the release): values are
      compared with [same], which takes +0 and -0 for the same number.
    - A column in which every cell is an integer and none is missing is held
      as int64, and converted to float64 by the sum itself in blocks of 8192
      cells; up to that length the result is that of the float64 column with
      the same values. *)
Module Float64.
Local Open Scope float_scope.

(** A row count as a float64. *)
Definition of_nat (n : nat) : float := of_uint63 (Uint63.of_Z (Z.of_nat n)).

Definition notna (x : float) : bool := negb (is_nan x).

(** [np.putmask(values, mask, 0)] *)
Definition fillna0 (x : float) : float := if is_nan x then 0 else x.

Definition dropna (l : list float) : list float := filter notna l.

(** One round of the unrolled loop of numpy's pairwise sum: eight
    accumulators, each receiving one of the next eight elements. *)
Definition add8 (r a : list float) : list float :=
  map (fun p => fst p + snd p) (combine r a).

Fixpoint unrolled (blocks : nat) (r a : list float) : list float * list float :=
  match blocks with
  | O => (r, a)
  | S k => unrolled k (add8 r (firstn 8 a)) (skipn 8 a)
  end.

Definition tree8 (r : list float) : float :=
  match r with
  | [r0; r1; r2; r3; r4; r5; r6; r7] =>
      ((r0 + r1) + (r2 + r3)) + ((r4 + r5) + (r6 + r7))
  | _ => 0
  end.

(** From 8 to 128 elements: the eight accumulators start as the first eight
    elements and take in the following blocks of eight, are added up as a
    tree, and the elements left over are added one by one. *)
Definition block_sum (a : list float) : float :=
  let (r, rest) := unrolled (length a / 8 - 1) (firstn 8 a) (skipn 8 a) in
  fold_left add rest (tree8 r).

(** numpy's [pairwise_sum] over a contiguous float64 array: below 8 elements
    a plain loop in array order; up to 128 elements [block_sum]; beyond, the
    array is cut near its middle (at a multiple of 8) and the sums of the two
    parts are added.  [fuel] bounds the depth of the cuts; the length of the
    array is enough ([pairwise_sum_fuel]). *)
Fixpoint pairwise_sum (fuel : nat) (a : list float) : float :=
  let n := length a in
  if (n <? 8)%nat then fold_left add a 0
  else if (n <=? 128)%nat then block_sum a
  else match fuel with
       | O => 0
       | S k =>
           let n2 := (n / 2 - (n / 2) mod 8)%nat in
           pairwise_sum k (firstn n2 a) + pairwise_sum k (skipn n2 a)
       end.

(** [a.sum()], that is [np.add.reduce(a)]: the identity 0 plus the pairwise
    sum. *)
Definition np_sum (a : list float) : float := 0 + pairwise_sum (length a) a.

(** [a.mean()] of an array without missing values. *)
Definition np_mean (a : list float) : float := np_sum a / of_nat (length a).

(** [df[col].mean()], that is [nanops.nanmean]: the missing cells are set to
    0, the array is summed, and the sum is divided by the number of cells
    that are not missing ([the_sum / count if count > 0 else np.nan]). *)
Definition mean (values : list float) : float :=
  let count := length (dropna values) in
  let the_sum := np_sum (map fillna0 values) in
  if (0 <? count)%nat then the_sum / of_nat count else nan.

Fixpoint insert (x : float) (l : list float) : list float :=
  match l with
  | [] => [x]
  | y :: t => if x <=? y then x :: l else y :: insert x t
  end.

Definition sort (l : list float) : list float := fold_right insert [] l.

(** [df[col].median()], that is [np.nanmedian] of the cells that are not
    missing: NaN when there is none, otherwise [np.mean] of the middle
    element or of the two middle elements. *)
Definition median (values : list float) : float :=
  let v := sort (dropna values) in
  let n := length v in
  if (n =? 0)%nat then nan
  else if Nat.even n
       then np_mean [nth (n / 2 - 1) v 0; nth (n / 2) v 0]
       else np_mean [nth (n / 2) v 0].

(** [valid = notna(a) & notna(b)]: the rows in which both cells are
    present. *)
Fixpoint complete_pairs (a b : list float) : list (float * float) :=
  match a, b with
  | x :: a', y :: b' =>
      if notna x && notna y then (x, y) :: complete_pairs a' b'
      else complete_pairs a' b'
  | _, _ => []
  end.

(** The inner product of two rows of the matrix of deviations, the products
    added in row order.  numpy hands the product [dot(X, X.T)] to BLAS,
    which may group the additions otherwise; what is proved below uses only
    that the result does not depend on the order of the two rows, and the
    examples have products and sums that are small integers, exact in any
    grouping. *)
Definition dot (x y : list float) : float :=
  fold_left (fun acc p => acc + fst p * snd p) (combine x y) 0.

(** [X -= avg[:, None]] *)
Definition deviations (x : list float) : list float :=
  map (fun v => v - np_mean x) x.

(** An entry of [np.cov]: [c = dot(X, X.T); c *= 1 / (n - 1)]. *)
Definition cov (x y : list float) : float :=
  dot (deviations x) (deviations y) * (1 / of_nat (length x - 1)).

(** [np.clip(c, -1, 1)]; a NaN stays a NaN. *)
Definition clip (r : float) : float :=
  if is_nan r then r else if r <? -1 then -1 else if 1 <? r then 1 else r.

(** [np.corrcoef(x, y)[0, 1]]: [c /= stddev[:, None]] divides the entry by
    the standard deviation of its row, [c /= stddev[None, :]] then divides
    it by that of its column. *)
Definition corrcoef (x y : list float) : float :=
  clip (cov x y / sqrt (cov x x) / sqrt (cov y y)).

(** [a.corr(b)], that is [nanops.nancorr] with [min_periods = 1]. *)
Definition corr (a b : list float) : float :=
  let p := complete_pairs a b in
  if (length p <? 1)%nat then nan
  else corrcoef (map fst p) (map snd p).

(** Two numbers of the specification of binary64 denote the same value:
    equal, both zero (of either sign), or both NaN. *)
Definition SFsame (x y : spec_float) : bool :=
  match x, y with
  | S754_zero _, S754_zero _ => true
  | S754_infinity s, S754_infinity s' => Bool.eqb s s'
  | S754_nan, S754_nan => true
  | S754_finite s m e, S754_finite s' m' e' =>
      Bool.eqb s s' && Pos.eqb m m' && Z.eqb e e'
  | _, _ => false
  end.

Definition same (a b : float) : bool := SFsame (Prim2SF a) (Prim2SF b).




End Float64.

(** ** The data table: str.contains(search, case=False) *)

(** [Series.str.contains(pat, case=False)] leaves [regex] at its default
    [True]: the text typed in the search box is compiled with
    [re.compile(pat, re.IGNORECASE)] and a name is kept when [search] finds a
    match in it.

    Names and patterns are byte strings, read as ASCII text.  The patterns
    modelled are the alternations of sequences of plain characters, [.],
    escaped special characters and [\n]; this fragment holds only patterns
    that [re] accepts.  A pattern outside the fragment is given no reading
    ([None]), whether [re] rejects it (an opening parenthesis alone) or
    accepts it (a pattern with [*] or [^]). *)

Local Open Scope string_scope.

(** The special characters of the [re] syntax. *)
Definition special_characters : string := ".^$*+?{}[]\|()".

Fixpoint mem_ascii (c : ascii) (s : string) : bool :=
  match s with
  | EmptyString => false
  | String d t => Ascii.eqb c d || mem_ascii c t
  end.

Definition is_special (c : ascii) : bool := mem_ascii c special_characters.

Definition newline : ascii := "010"%char.

Inductive atom : Type :=
| Lit (c : ascii)      (* one given character *)
| AnyChar.             (* [.]: any character except a newline *)

(** Alternatives, each a sequence of atoms. *)
Definition regex : Type := list (list atom).

(** [cur] holds the atoms of the current alternative, last one first. *)
Fixpoint re_parse_from (pat : string) (cur : list atom) : option regex :=
  match pat with
  | EmptyString => Some [rev cur]
  | String c rest =>
      if Ascii.eqb c "|" then option_map (cons (rev cur)) (re_parse_from rest [])
      else if Ascii.eqb c "." then re_parse_from rest (AnyChar :: cur)
      else if Ascii.eqb c "\" then
        match rest with
        | EmptyString => None
        | String e rest' =>
            if is_special e then re_parse_from rest' (Lit e :: cur)
            else if Ascii.eqb e "n" then re_parse_from rest' (Lit newline :: cur)
            else None
        end
      else if is_special c then None
      else re_parse_from rest (Lit c :: cur)
  end.

Definition re_parse (pat : string) : option regex := re_parse_from pat [].



Definition is_upper (c : ascii) : bool :=
  let n := nat_of_ascii c in Nat.leb 65 n && Nat.leb n 90.

Definition lower (c : ascii) : ascii :=
  if is_upper c then ascii_of_nat (nat_of_ascii c + 32) else c.

Fixpoint lower_string (s : string) : string :=
  match s with
  | EmptyString => EmptyString
  | String c t => String (lower c) (lower_string t)
  end.

(** One atom against one character, under [re.IGNORECASE]. *)
Definition atom_matches (a : atom) (c : ascii) : bool :=
  match a with
  | Lit l => Ascii.eqb (lower l) (lower c)
  | AnyChar => negb (Ascii.eqb c newline)
  end.

(** The sequence matches at the start of [s]. *)
Fixpoint match_here (seq : list atom) (s : string) : bool :=
  match seq with
  | [] => true
  | a :: seq' =>
      match s with
      | EmptyString => false
      | String c s' => atom_matches a c && match_here seq' s'
      end
  end.

(** The sequence matches somewhere in [s]. *)
Fixpoint match_anywhere (seq : list atom) (s : string) : bool :=
  match_here seq s ||
  match s with
  | EmptyString => false
  | String _ s' => match_anywhere seq s'
  end.

(** [regex.search(s) is not None] *)
Definition re_search (re : regex) (s : string) : bool :=
  existsb (fun seq => match_anywhere seq s) re.

(** [re.compile(pat, re.IGNORECASE).search] on the modelled fragment;
    [None] outside it. *)
Definition compile_ignorecase (pat : string) : option (string -> bool) :=
  option_map re_search (re_parse pat).

(** [filtered_df = df[df['会社名'].str.contains(search, case=False)]
                   if search else df]
    over a pattern engine: a function from patterns to the predicate each one
    compiles to, or to nothing when no predicate is produced. *)
Definition search_with (engine : string -> option (string -> bool))
    (df : Dataset) (query : string) : option Dataset :=
  if String.eqb query "" then Some df
  else
    match engine query with
    | Some found => Some (filter (fun r => found (company r)) df)
    | None => None
    end.

Definition search (df : Dataset) (query : string) : option Dataset :=
  search_with compile_ignorecase df query.

(** The filter again on the result of a first filter. *)
Definition search_twice (engine : string -> option (string -> bool))
    (df : Dataset) (query : string) : option Dataset :=
  match search_with engine df query with
  | Some filtered => search_with engine filtered query
  | None => None
  end.

(** Substring search as the specification words it: [q] occurs in [s], the
    case of letters aside. *)
Definition is_substring (q s : string) : Prop :=
  exists before after, s = before ++ q ++ after.

Definition ci_substring (q s : string) : Prop :=
  is_substring (lower_string q) (lower_string s).

(** The pattern has no special character. *)
Fixpoint plain (q : string) : bool :=
  match q with
  | EmptyString => true
  | String c t => negb (is_special c) && plain t
  end.

(** The pattern that asks for the characters of [q] one after the other. *)
Definition literal_atoms (q : string) : list atom :=
  map Lit (list_ascii_of_string q).

(** Some character of [s] is not a newline. *)
Fixpoint has_non_newline (s : string) : bool :=
  match s with
  | EmptyString => false
  | String c t => negb (Ascii.eqb c newline) || has_non_newline t
  end.

(** The pattern typed as the four characters [.], [|], [\], [n]. *)
Definition any_character_pattern : string := ".|\n".

(** One filter after another: the table filtered with [q1], then filtered
    again with [q2]. *)
Definition search_then (engine : string -> option (string -> bool))
    (df : Dataset) (q1 q2 : string) : option Dataset :=
  match search_with engine df q1 with
  | Some filtered => search_with engine filtered q2
  | None => None
  end.

(** ** load_data and the head of main *)

(** What the page reads from outside: [data.csv] (its rows when the file
    exists) and the memo of [@st.cache_data] on [load_data], which holds the
    frame of an earlier successful call. *)
Record World : Type := mkWorld {
  data_csv : option Dataset;
  load_data_cache : option Dataset
}.

(** [load_data()] under [@st.cache_data]: a memoised frame is returned
    without running the body; otherwise [pd.read_csv('data.csv')] runs, and
    its result is memoised when it returns one. *)
Definition load_data (w : World) : World * outcome Dataset :=
  match load_data_cache w with
  | Some df => (w, Ok df)
  | None =>
      match data_csv w with
      | Some df => ({| data_csv := data_csv w; load_data_cache := Some df |}, Ok df)
      | None => (w, Raise FileNotFoundError)
      end
  end.

(** What [main] puts on the page: the error message alone
    ([st.error(...); return]), or the dashboard built from the frame and its
    statistics (header, metric cards and the three tabs); an exception that
    the [except] clause does not name leaves [main]. *)
Inductive page : Type :=
| error_message (msg : string)
| dashboard (df : Dataset) (stats : list (column * col_stats))
| uncaught (e : exn).

Definition missing_file_message : string :=
  "エラー：data.csvファイルが見つかりません。".

(** [main]: the [try] block and what follows it.  Both [load_data()] and
    [calculate_statistics(df)] are inside the [try]; the [except] clause
    names [FileNotFoundError] only.  A file that holds the header line and no
    row is read as a frame whose columns have dtype [object], on which
    [df.nlargest(3, col)] raises [TypeError]. *)
Definition main (w : World) : World * page :=
  match load_data w with
  | (w', Ok []) => (w', uncaught TypeError)
  | (w', Ok df) => (w', dashboard df (calculate_statistics df))
  | (w', Raise FileNotFoundError) => (w', error_message missing_file_message)
  | (w', Raise e) => (w', uncaught e)
  end.

(** ** Frames used in the examples *)

Definition row (name : string) (o e s g : Q) (p b v : cell) : Row :=
  mkRow name (Some o) (Some e) (Some s) (Some g) p b v.

(** Two companies with environmental scores 70 and 50. *)
Definition two_rows : Dataset :=
  [ row "A" 80 70 60 75 (Some 1000000) None None;
    row "B" 60 50 90 65 (Some 5) None None ].

(** Overall scores 10, 50 and 30. *)
Definition three_rows : Dataset :=
  [ row "X" 10 1 1 1 None None None;
    row "Y" 50 1 1 1 None None None;
    row "Z" 30 1 1 1 None None None ].

(** Four companies, two with overall score 50 and then two with 10. *)
Definition tied_pairs : Dataset :=
  [ row "A" 50 1 1 1 None None None;
    row "B" 50 1 1 1 None None None;
    row "C" 10 1 1 1 None None None;
    row "D" 10 1 1 1 None None None ].

(** One company, nothing missing. *)
Definition one_row : Dataset :=
  [ row "A" 80 70 60 75 (Some 5) None None ].

(** Three companies, the second without a PE ratio. *)
Definition missing_pe : Dataset :=
  [ row "A" 80 70 60 75 (Some 5) None None;
    row "B" 60 50 90 65 None None None;
    row "C" 70 40 50 55 (Some 3) None None ].

(** The PE ratios of [missing_pe] as float64 cells. *)
Definition pe_cells : list float := [5; nan; 3]%float.

(** The file is gone, the memo of [load_data] still holds a frame. *)
Definition deleted_after_load : World :=
  {| data_csv := None; load_data_cache := Some two_rows |}.

(** * Properties *)

Local Open Scope Q_scope.
Local Open Scope list_scope.

(** ** Order on cells *)

Lemma Qle_bool_total (x y : Q) : Qle_bool x y = true \/ Qle_bool y x = true.
Proof.
  destruct (Qlt_le_dec y x) as [H | H].
  - right. apply Qle_bool_iff. apply Qlt_le_weak. exact H.
  - left. apply Qle_bool_iff. exact H.
Qed.

Lemma Qle_bool_trans (x y z : Q) :
  Qle_bool x y = true -> Qle_bool y z = true -> Qle_bool x z = true.
Proof.
  rewrite !Qle_bool_iff. apply Qle_trans.
Qed.

Lemma cell_geb_trans (a b c : cell) :
  cell_geb a b = true -> cell_geb b c = true -> cell_geb a c = true.
Proof.
  unfold cell_geb.
  destruct a as [x |], b as [y |], c as [z |]; simpl;
    rewrite ?negb_involutive; try congruence.
  intros H1 H2. exact (Qle_bool_trans _ _ _ H2 H1).
Qed.

Lemma cell_ltb_geb (a b : cell) : cell_ltb a b = true -> cell_geb b a = true.
Proof.
  unfold cell_geb.
  destruct a as [x |], b as [y |]; simpl; try congruence.
  rewrite negb_involutive. intros H.
  destruct (Qle_bool_total x y) as [E | E]; [exact E |].
  rewrite E in H. discriminate.
Qed.

Lemma cell_geb_some (x y : Q) :
  cell_geb (Some x) (Some y) = true <-> y <= x.
Proof.
  unfold cell_geb. simpl. rewrite negb_involutive. apply Qle_bool_iff.
Qed.

Lemma asc_leb_trans (a b c : cell) :
  asc_leb a b = true -> asc_leb b c = true -> asc_leb a c = true.
Proof.
  destruct a as [x |], b as [y |], c as [z |]; simpl; try congruence.
  apply Qle_bool_trans.
Qed.

Lemma asc_leb_total (a b : cell) : asc_leb a b = true \/ asc_leb b a = true.
Proof.
  destruct a as [x |], b as [y |]; simpl; auto using Qle_bool_total.
Qed.

(** ** Lists *)

Lemma sorted_app_inv {A : Type} (R : A -> A -> Prop) (l1 l2 : list A) :
  StronglySorted R (l1 ++ l2) ->
  forall a b, In a l1 -> In b l2 -> R a b.
Proof.
  induction l1 as [| x l1 IH]; simpl; intros HS a b Ha Hb.
  - contradiction.
  - inversion HS as [| ? ? HS' HF]; subst.
    destruct Ha as [<- | Ha].
    + rewrite Forall_forall in HF. apply HF. apply in_or_app. now right.
    + now apply IH.
Qed.

Lemma sorted_app_l {A : Type} (R : A -> A -> Prop) (l1 l2 : list A) :
  StronglySorted R (l1 ++ l2) -> StronglySorted R l1.
Proof.
  induction l1 as [| x l1 IH]; simpl; intros HS.
  - constructor.
  - inversion HS as [| ? ? HS' HF]; subst. constructor.
    + now apply IH.
    + apply Forall_app in HF. tauto.
Qed.

Lemma sorted_app_r {A : Type} (R : A -> A -> Prop) (l1 l2 : list A) :
  StronglySorted R (l1 ++ l2) -> StronglySorted R l2.
Proof.
  induction l1 as [| x l1 IH]; simpl; intros HS.
  - exact HS.
  - inversion HS; subst. now apply IH.
Qed.

Lemma filter_firstn {A : Type} (p : A -> bool) (n : nat) (l : list A) :
  filter p (firstn n l)
  = firstn (length (filter p (firstn n l))) (filter p l).
Proof.
  revert n. induction l as [| x l IH]; intros [| n]; simpl; try reflexivity.
  destruct (p x); simpl.
  - f_equal. apply IH.
  - apply IH.
Qed.

(** ** The descending stable sort behind nlargest *)

Section SortDescendingFacts.
Variable col : column.

Lemma insert_desc_perm (x : Row) (l : list Row) :
  Permutation (x :: l) (insert_desc col x l).
Proof.
  induction l as [| y t IH]; simpl.
  - apply Permutation_refl.
  - destruct (cell_ltb (get col x) (get col y)).
    + eapply perm_trans; [apply perm_swap |]. now apply perm_skip.
    + apply Permutation_refl.
Qed.

Lemma sort_desc_perm (df : Dataset) : Permutation df (sort_desc col df).
Proof.
  induction df as [| x l IH]; simpl.
  - constructor.
  - eapply perm_trans; [| apply insert_desc_perm]. now apply perm_skip.
Qed.

Lemma insert_desc_sorted (x : Row) (l : list Row) :
  StronglySorted (desc_ge col) l ->
  StronglySorted (desc_ge col) (insert_desc col x l).
Proof.
  induction l as [| y t IH]; simpl; intros HS.
  - repeat constructor.
  - inversion HS as [| ? ? HS' HF]; subst.
    destruct (cell_ltb (get col x) (get col y)) eqn:E.
    + constructor; [now apply IH |].
      apply (Permutation_Forall (insert_desc_perm x t)).
      constructor; [| exact HF].
      now apply cell_ltb_geb.
    + assert (Hxy : desc_ge col x y)
        by (unfold desc_ge, cell_geb; now rewrite E).
      constructor; [exact HS |].
      constructor; [exact Hxy |].
      eapply Forall_impl; [| exact HF].
      intros z Hz. unfold desc_ge in *. eapply cell_geb_trans; eassumption.
Qed.

Lemma sort_desc_sorted (df : Dataset) :
  StronglySorted (desc_ge col) (sort_desc col df).
Proof.
  induction df as [| x l IH]; simpl.
  - constructor.
  - now apply insert_desc_sorted.
Qed.

Lemma ties_not_below (v : cell) (x y : Row) :
  ties_with col v x = true -> ties_with col v y = true ->
  cell_ltb (get col x) (get col y) = false.
Proof.
  unfold ties_with, cell_tie. rewrite !andb_true_iff.
  intros [Hx _] [_ Hy].
  pose proof (cell_geb_trans _ _ _ Hx Hy) as H.
  unfold cell_geb in H. now apply negb_true_iff in H.
Qed.

Lemma insert_desc_ties (v : cell) (x : Row) (l : list Row) :
  filter (ties_with col v) (insert_desc col x l)
  = filter (ties_with col v) (x :: l).
Proof.
  induction l as [| y t IH]; simpl; [reflexivity |].
  destruct (cell_ltb (get col x) (get col y)) eqn:E; [| reflexivity].
  simpl in *. rewrite IH.
  destruct (ties_with col v x) eqn:Tx, (ties_with col v y) eqn:Ty;
    try reflexivity.
  rewrite (ties_not_below v x y Tx Ty) in E. discriminate.
Qed.

(** Stability: rows with equal values come out in frame order. *)
Lemma sort_desc_stable (v : cell) (df : Dataset) :
  filter (ties_with col v) (sort_desc col df) = filter (ties_with col v) df.
Proof.
  induction df as [| x l IH]; simpl; [reflexivity |].
  rewrite insert_desc_ties. simpl. now rewrite IH.
Qed.
End SortDescendingFacts.

Lemma stats_lookup_score (df : Dataset) (col : column) :
  In col score_columns ->
  stats_lookup (calculate_statistics df) col = Some (column_statistics df col).
Proof.
  simpl. intros [<- | [<- | [<- | [<- | []]]]]; reflexivity.
Qed.

(** ** float64 arithmetic *)

Section Binary64.
Local Open Scope float_scope.

Lemma SFsame_refl (x : spec_float) : Float64.SFsame x x = true.
Proof.
  destruct x as [s | s | | s m e]; simpl; try reflexivity.
  - now destruct s.
  - now rewrite Bool.eqb_reflx, Pos.eqb_refl, Z.eqb_refl.
Qed.

Lemma SFsame_cases (x y : spec_float) :
  Float64.SFsame x y = true ->
  x = y \/ exists s s', x = S754_zero s /\ y = S754_zero s'.
Proof.
  destruct x as [s | s | | s m e], y as [s' | s' | | s' m' e']; simpl;
    try discriminate; intros H.
  - right. now exists s, s'.
  - left. apply Bool.eqb_prop in H. now subst.
  - now left.
  - left. apply andb_true_iff in H. destruct H as [H He].
    apply andb_true_iff in H. destruct H as [Hs Hm].
    apply Bool.eqb_prop in Hs. apply Pos.eqb_eq in Hm. apply Z.eqb_eq in He.
    now subst.
Qed.

Lemma SFsame_trans (x y z : spec_float) :
  Float64.SFsame x y = true -> Float64.SFsame y z = true ->
  Float64.SFsame x z = true.
Proof.
  intros H1 H2.
  destruct (SFsame_cases _ _ H1) as [-> | (s & s' & -> & ->)]; [exact H2 |].
  destruct z; simpl in *; congruence.
Qed.

(** Adding +0 leaves the value as it is. *)
Lemma SFadd_zero_r (x : spec_float) :
  Float64.SFsame (SF64add x (S754_zero false)) x = true.
Proof.
  destruct x as [[|] | [|] | | s m e]; try reflexivity.
  apply SFsame_refl.
Qed.

Lemma SFadd_zero_l (x : spec_float) :
  Float64.SFsame (SF64add (S754_zero false) x) x = true.
Proof.
  destruct x as [[|] | [|] | | s m e]; try reflexivity.
  apply SFsame_refl.
Qed.

Lemma SFadd_same_l (x x' v : spec_float) :
  Float64.SFsame x x' = true ->
  Float64.SFsame (SF64add x v) (SF64add x' v) = true.
Proof.
  intros H.
  destruct (SFsame_cases _ _ H) as [-> | (s & s' & -> & ->)];
    [apply SFsame_refl |].
  destruct v as [[|] | [|] | | sv mv ev], s, s'; try reflexivity;
    apply SFsame_refl.
Qed.

Lemma SFdiv_same_l (x x' v : spec_float) :
  Float64.SFsame x x' = true ->
  Float64.SFsame (SF64div x v) (SF64div x' v) = true.
Proof.
  intros H.
  destruct (SFsame_cases _ _ H) as [-> | (s & s' & -> & ->)];
    [apply SFsame_refl |].
  destruct v as [[|] | [|] | | sv mv ev], s, s'; reflexivity.
Qed.

Lemma SFmul_comm (x y : spec_float) : SF64mul x y = SF64mul y x.
Proof.
  destruct x as [s | s | | s m e], y as [s' | s' | | s' m' e'];
    unfold SF64mul, SFmul; try reflexivity;
    rewrite (xorb_comm s s'); try reflexivity.
  now rewrite Pos.mul_comm, Z.add_comm.
Qed.

Lemma same_refl (a : float) : Float64.same a a = true.
Proof.
  apply SFsame_refl.
Qed.

Lemma same_trans (a b c : float) :
  Float64.same a b = true -> Float64.same b c = true ->
  Float64.same a c = true.
Proof.
  apply SFsame_trans.
Qed.

Lemma add_zero_r (a : float) : Float64.same (a + 0) a = true.
Proof.
  unfold Float64.same. rewrite add_spec. apply SFadd_zero_r.
Qed.

Lemma add_zero_l (a : float) : Float64.same (0 + a) a = true.
Proof.
  unfold Float64.same. rewrite add_spec. apply SFadd_zero_l.
Qed.

Lemma add_same_l (a a' v : float) :
  Float64.same a a' = true -> Float64.same (a + v) (a' + v) = true.
Proof.
  unfold Float64.same. rewrite !add_spec. apply SFadd_same_l.
Qed.

Lemma div_same_l (a a' v : float) :
  Float64.same a a' = true -> Float64.same (a / v) (a' / v) = true.
Proof.
  unfold Float64.same. rewrite !div_spec. apply SFdiv_same_l.
Qed.

Lemma mul_comm (x y : float) : x * y = y * x.
Proof.
  apply Prim2SF_inj. rewrite !mul_spec. apply SFmul_comm.
Qed.

(** *** The sum *)

(** The cuts of [pairwise_sum] shorten the array: any fuel not below the
    length gives the same sum. *)
Lemma pairwise_sum_fuel (fuel fuel' : nat) (a : list float) :
  (length a <= fuel)%nat -> (length a <= fuel')%nat ->
  Float64.pairwise_sum fuel a = Float64.pairwise_sum fuel' a.
Proof.
  revert fuel' a. induction fuel as [| k IH]; intros fuel' a H H'.
  - destruct a; [| simpl in H; lia]. now destruct fuel'.
  - destruct fuel' as [| k'].
    + destruct a; [reflexivity | simpl in H'; lia].
    + cbn [Float64.pairwise_sum].
      destruct (length a <? 8)%nat eqn:E8; [reflexivity |].
      destruct (length a <=? 128)%nat eqn:E128; [reflexivity |].
      apply Nat.leb_gt in E128.
      pose proof (Nat.div_mod_eq (length a) 2) as Hd.
      pose proof (Nat.mod_upper_bound (length a) 2 ltac:(lia)) as Hm.
      pose proof (Nat.mod_upper_bound (length a / 2) 8 ltac:(lia)) as Hm8.
      pose proof (Nat.div_mod_eq (length a / 2) 8) as Hd8.
      f_equal; apply IH; rewrite ?length_firstn, ?length_skipn; lia.
Qed.

Lemma pairwise_sum_short (fuel : nat) (a : list float) :
  (length a < 8)%nat -> Float64.pairwise_sum fuel a = fold_left add a 0.
Proof.
  intros H. apply Nat.ltb_lt in H.
  destruct fuel; simpl; now rewrite H.
Qed.

(** A cell set to 0 adds nothing to a running sum. *)
Lemma sum_skips_missing (values : list float) (acc acc' : float) :
  Float64.same acc acc' = true ->
  Float64.same (fold_left add (map Float64.fillna0 values) acc)
               (fold_left add (Float64.dropna values) acc') = true.
Proof.
  revert acc acc'. induction values as [| v t IH]; intros acc acc' H; simpl.
  - exact H.
  - unfold Float64.fillna0, Float64.notna. destruct (is_nan v); simpl.
    + apply IH. exact (same_trans _ _ _ (add_zero_r acc) H).
    + apply IH. now apply add_same_l.
Qed.

(** *** mean *)

Lemma mean_quotient (values : list float) :
  Float64.dropna values <> [] ->
  Float64.mean values
  = Float64.np_sum (map Float64.fillna0 values)
    / Float64.of_nat (length (Float64.dropna values)).
Proof.
  intros Hne. unfold Float64.mean.
  destruct (Float64.dropna values); [congruence | reflexivity].
Qed.

(** Below 8 rows the sum is the plain loop, to which the cells set to 0
    add nothing. *)
Lemma mean_short (values : list float) :
  (length values < 8)%nat -> Float64.dropna values <> [] ->
  Float64.same
    (Float64.mean values)
    (fold_left add (Float64.dropna values) 0
     / Float64.of_nat (length (Float64.dropna values))) = true.
Proof.
  intros Hlen Hne. rewrite (mean_quotient values Hne).
  apply div_same_l. unfold Float64.np_sum.
  rewrite pairwise_sum_short by now rewrite length_map.
  eapply same_trans; [apply add_zero_l |].
  apply sum_skips_missing. apply same_refl.
Qed.




(** *** corr *)

Lemma pairs_of_swapped_columns (a b : list float) :
  Float64.complete_pairs b a
  = map (fun xy => (snd xy, fst xy)) (Float64.complete_pairs a b).
Proof.
  revert b. induction a as [| x a IH]; intros [| y b]; simpl; try reflexivity.
  rewrite andb_comm.
  destruct (Float64.notna x && Float64.notna y); simpl; now rewrite IH.
Qed.

Lemma dot_comm (x y : list float) : Float64.dot x y = Float64.dot y x.
Proof.
  unfold Float64.dot. generalize 0. revert y.
  induction x as [| u x IH]; intros [| v y] acc; simpl; try reflexivity.
  rewrite (mul_comm u v). apply IH.
Qed.

Lemma cov_comm (x y : list float) :
  length x = length y -> Float64.cov x y = Float64.cov y x.
Proof.
  intros H. unfold Float64.cov. now rewrite dot_comm, H.
Qed.

(** C9, as stated, fails.  For the overall scores 0, 1, 5 and the PE ratios
    0, 6, 3 the covariance is 1.5 and the standard deviations are the square
    root of 7 and 3: dividing 1.5 by the first and then by the second does
    not give the float64 number that the other order gives. *)
Lemma C9_division_order_counterexample :
  Float64.corr [0; 1; 5] [0; 6; 3] = 0.18898223650461363 /\
  Float64.corr [0; 6; 3] [0; 1; 5] = 0.1889822365046136 /\
  Float64.corr [0; 1; 5] [0; 6; 3] <> Float64.corr [0; 6; 3] [0; 1; 5].
Proof.
  split; [vm_compute; reflexivity |]. split; [vm_compute; reflexivity |].
  intros H.
  apply (f_equal (fun z => PrimFloat.eqb z 0.18898223650461363)) in H.
  vm_compute in H. discriminate H.
Qed.

(** C9, amended.  Exchanging the two columns exchanges, in each retained
    row, the two values, and leaves the covariance as it is.  The
    coefficient of [(a, b)] is the covariance divided by the standard
    deviation of [a] and then by that of [b], clipped; the coefficient of
    [(b, a)] is the same covariance divided by the same two standard
    deviations in the other order.  Both are NaN when no row is retained. *)
Theorem C9_coefficient_swaps_divisions (a b : list float) :
  let p := Float64.complete_pairs a b in
  let x := map fst p in
  let y := map snd p in
  Float64.complete_pairs b a = map (fun xy => (snd xy, fst xy)) p /\
  Float64.cov y x = Float64.cov x y /\
  Float64.corr a b
  = (if (length p <? 1)%nat then nan
     else Float64.clip (Float64.cov x y / sqrt (Float64.cov x x)
                                        / sqrt (Float64.cov y y))) /\
  Float64.corr b a
  = (if (length p <? 1)%nat then nan
     else Float64.clip (Float64.cov x y / sqrt (Float64.cov y y)
                                        / sqrt (Float64.cov x x))).
Proof.
  intros p x y.
  assert (Hc : Float64.cov y x = Float64.cov x y).
  { apply cov_comm. unfold x, y. now rewrite !length_map. }
  split; [apply pairs_of_swapped_columns |].
  split; [exact Hc |]. split; [reflexivity |].
  unfold Float64.corr. rewrite pairs_of_swapped_columns. fold p.
  rewrite length_map, !map_map. simpl.
  change (map (fun xy => snd xy) p) with y.
  change (map (fun xy => fst xy) p) with x.
  destruct (length p <? 1)%nat; [reflexivity |].
  unfold Float64.corrcoef. now rewrite Hc.
Qed.

End Binary64.

(** ** nlargest *)

Lemma nlargest_length (n : nat) (col : column) (df : Dataset) :
  length (nlargest n col df) = Nat.min n (length df).
Proof.
  unfold nlargest. rewrite length_firstn.
  now rewrite <- (Permutation_length (sort_desc_perm col df)).
Qed.

(** C4.  For each score column, the top-3 entry of the statistics lists the
    names of [nlargest(3, col)], and these rows
    - are [min 3 |D|] in number;
    - stand in descending order of the column;
    - leave out only rows that rank no higher than any row kept: between
      two present values this is [<=] on numbers, and a missing value ranks
      below every number;
    - among rows of equal value, are the first ones of the frame, in frame
      order. *)
Theorem C4_top3_largest_first_seen (df : Dataset) (col : column) :
  In col score_columns ->
  exists s, stats_lookup (calculate_statistics df) col = Some s /\
    stat_top s = map company (nlargest 3 col df) /\
    length (nlargest 3 col df) = Nat.min 3 (length df) /\
    StronglySorted (desc_ge col) (nlargest 3 col df) /\
    (exists excluded,
        Permutation df (nlargest 3 col df ++ excluded) /\
        (forall kept out, In kept (nlargest 3 col df) -> In out excluded ->
           desc_ge col kept out) /\
        (forall kept out x y, In kept (nlargest 3 col df) -> In out excluded ->
           get col kept = Some x -> get col out = Some y -> y <= x)) /\
    (forall v,
        filter (ties_with col v) (nlargest 3 col df)
        = firstn (length (filter (ties_with col v) (nlargest 3 col df)))
                 (filter (ties_with col v) df)).
Proof.
  intros Hcol. exists (column_statistics df col).
  split; [now apply stats_lookup_score |].
  split; [reflexivity |].
  split; [apply nlargest_length |].
  pose proof (sort_desc_sorted col df) as HS.
  rewrite <- (firstn_skipn 3 (sort_desc col df)) in HS.
  split; [| split].
  - exact (sorted_app_l _ _ _ HS).
  - exists (skipn 3 (sort_desc col df)).
    assert (Hge : forall kept out, In kept (nlargest 3 col df) ->
              In out (skipn 3 (sort_desc col df)) -> desc_ge col kept out)
      by (intros kept out; apply (sorted_app_inv _ _ _ HS)).
    split; [| split].
    + unfold nlargest. rewrite firstn_skipn. apply sort_desc_perm.
    + exact Hge.
    + intros kept out x y Hk Ho Ex Ey.
      specialize (Hge kept out Hk Ho). unfold desc_ge in Hge.
      rewrite Ex, Ey in Hge. now apply cell_geb_some.
  - intros v. unfold nlargest.
    rewrite <- (sort_desc_stable col v df). apply filter_firstn.
Qed.

Lemma C4_top3_witness :
  In overall_score score_columns /\
  exists s, stats_lookup (calculate_statistics missing_pe) overall_score
            = Some s /\
    stat_top s = map company (nlargest 3 overall_score missing_pe) /\
    length (nlargest 3 overall_score missing_pe)
    = Nat.min 3 (length missing_pe) /\
    StronglySorted (desc_ge overall_score)
                   (nlargest 3 overall_score missing_pe) /\
    (exists excluded,
        Permutation missing_pe
                    (nlargest 3 overall_score missing_pe ++ excluded) /\
        (forall kept out,
           In kept (nlargest 3 overall_score missing_pe) ->
           In out excluded -> desc_ge overall_score kept out) /\
        (forall kept out x y,
           In kept (nlargest 3 overall_score missing_pe) ->
           In out excluded ->
           get overall_score kept = Some x ->
           get overall_score out = Some y -> y <= x)) /\
    (forall v,
        filter (ties_with overall_score v)
               (nlargest 3 overall_score missing_pe)
        = firstn (length (filter (ties_with overall_score v)
                                 (nlargest 3 overall_score missing_pe)))
                 (filter (ties_with overall_score v) missing_pe)).
Proof.
  split; [simpl; auto |].
  apply (C4_top3_largest_first_seen missing_pe overall_score).
  simpl. auto.
Defined.

(** ** The ranking *)

Lemma insert_asc_perm (col : column) (x : Row) (l : list Row) :
  Permutation (x :: l) (insert_asc col x l).
Proof.
  induction l as [| y t IH]; simpl.
  - apply Permutation_refl.
  - destruct (asc_leb (get col x) (get col y)).
    + apply Permutation_refl.
    + eapply perm_trans; [apply perm_swap |]. now apply perm_skip.
Qed.

Lemma insert_asc_sorted (col : column) (x : Row) (l : list Row) :
  StronglySorted (asc_le col) l ->
  StronglySorted (asc_le col) (insert_asc col x l).
Proof.
  induction l as [| y t IH]; simpl; intros HS.
  - repeat constructor.
  - inversion HS as [| ? ? HS' HF]; subst.
    destruct (asc_leb (get col x) (get col y)) eqn:E.
    + constructor; [exact HS |].
      constructor; [exact E |].
      eapply Forall_impl; [| exact HF].
      intros z Hz. unfold asc_le in *. eapply asc_leb_trans; eassumption.
    + constructor; [now apply IH |].
      apply (Permutation_Forall (insert_asc_perm col x t)).
      constructor; [| exact HF].
      destruct (asc_leb_total (get col x) (get col y)) as [H | H];
        [congruence | exact H].
Qed.

Lemma stable_sort_asc_perm (col : column) (df : Dataset) :
  Permutation df (stable_sort_asc col df).
Proof.
  induction df as [| x l IH]; simpl.
  - constructor.
  - eapply perm_trans; [| apply insert_asc_perm]. now apply perm_skip.
Qed.

Lemma stable_sort_asc_sorted (col : column) (df : Dataset) :
  StronglySorted (asc_le col) (stable_sort_asc col df).
Proof.
  induction df as [| x l IH]; simpl.
  - constructor.
  - now apply insert_asc_sorted.
Qed.

(** Inserting in front of a block of missing values never enters it. *)
Lemma insert_asc_before_missing (col : column) (x : Row) (S N : list Row) :
  Forall (fun r => missing_in col r = true) N ->
  insert_asc col x (S ++ N) = insert_asc col x S ++ N.
Proof.
  intros HN. induction S as [| y S IH]; simpl.
  - destruct N as [| y N]; [reflexivity |]. simpl.
    inversion HN as [| ? ? Hy _]; subst.
    unfold missing_in in Hy. destruct (get col y); [discriminate |].
    now destruct (get col x).
  - destruct (asc_leb (get col x) (get col y)); [reflexivity |].
    simpl. now rewrite IH.
Qed.

(** A row with a missing value passes every row that has one. *)
Lemma insert_asc_missing (col : column) (x : Row) (S : list Row) :
  missing_in col x = true ->
  Forall (fun r => present_in col r = true) S ->
  insert_asc col x S = S ++ [x].
Proof.
  intros Hx HS. induction S as [| y S IH]; simpl; [reflexivity |].
  inversion HS as [| ? ? Hy HS']; subst.
  unfold missing_in in Hx. unfold present_in in Hy.
  destruct (get col x); [discriminate |].
  destruct (get col y); [| discriminate]. simpl.
  now rewrite IH.
Qed.

Lemma filter_Forall {A : Type} (p : A -> bool) (l : list A) :
  Forall (fun a => p a = true) (filter p l).
Proof.
  apply Forall_forall. intros a Ha. now apply filter_In in Ha.
Qed.

(** The stable sort leaves the rows with a missing value at the end, in
    frame order. *)
Lemma stable_sort_asc_split (col : column) (df : Dataset) :
  stable_sort_asc col df
  = stable_sort_asc col (filter (present_in col) df)
    ++ filter (missing_in col) df.
Proof.
  induction df as [| x l IH]; [reflexivity |].
  change (stable_sort_asc col (x :: l))
    with (insert_asc col x (stable_sort_asc col l)).
  rewrite IH, insert_asc_before_missing by apply filter_Forall.
  assert (Hm : missing_in col x = negb (present_in col x)) by reflexivity.
  simpl filter. rewrite Hm.
  destruct (present_in col x) eqn:E; cbn [negb].
  - reflexivity.
  - rewrite insert_asc_missing.
    + now rewrite <- app_assoc.
    + exact Hm.
    + apply (Permutation_Forall (stable_sort_asc_perm col _)).
      apply filter_Forall.
Qed.

Lemma stable_sort_asc_sorts (col : column) (df : Dataset) :
  sort_values col df (stable_sort_asc col df).
Proof.
  exists (stable_sort_asc col (filter (present_in col) df)).
  split; [apply stable_sort_asc_perm |].
  split; [apply stable_sort_asc_sorted | apply stable_sort_asc_split].
Qed.

Lemma filter_split_perm {A : Type} (p : A -> bool) (l : list A) :
  Permutation l (filter p l ++ filter (fun a => negb (p a)) l).
Proof.
  induction l as [| x l IH]; simpl; [constructor |].
  destruct (p x); simpl.
  - now apply perm_skip.
  - now apply Permutation_cons_app.
Qed.

Lemma sort_values_perm (col : column) (df sorted : Dataset) :
  sort_values col df sorted -> Permutation df sorted.
Proof.
  intros (present & HP & _ & ->).
  eapply perm_trans; [apply (filter_split_perm (present_in col)) |].
  now apply Permutation_app_tail.
Qed.

Lemma sorted_then_missing (col : column) (S N : list Row) :
  StronglySorted (asc_le col) S ->
  Forall (fun r => missing_in col r = true) N ->
  StronglySorted (asc_le col) (S ++ N).
Proof.
  intros HS HN.
  assert (Hlast : forall y, Forall (asc_le col y) N).
  { intros y. eapply Forall_impl; [| exact HN].
    intros r Hr. unfold asc_le, missing_in in *.
    destruct (get col r); [discriminate |]. now destruct (get col y). }
  induction HS as [| y S HS IH HF]; simpl.
  - induction HN as [| z N Hz HN IHN]; constructor.
    + apply IHN. intros y. specialize (Hlast y). now inversion Hlast.
    + specialize (Hlast z). now inversion Hlast.
  - constructor; [exact IH |].
    apply Forall_app. split; [exact HF | apply Hlast].
Qed.

Lemma sort_values_sorted (col : column) (df sorted : Dataset) :
  sort_values col df sorted -> StronglySorted (asc_le col) sorted.
Proof.
  intros (present & _ & HS & ->).
  apply sorted_then_missing; [exact HS | apply filter_Forall].
Qed.

Lemma tail_length {A : Type} (n : nat) (l : list A) :
  length (tail n l) = Nat.min n (length l).
Proof.
  unfold tail. rewrite length_skipn. lia.
Qed.

Lemma tail_split {A : Type} (n : nat) (l : list A) :
  l = firstn (length l - n) l ++ tail n l.
Proof.
  unfold tail. symmetry. apply firstn_skipn.
Qed.

(** The last row of an ascending arrangement of scores 10, 50 and 30. *)
Lemma last_of_10_50_30 (r1 r2 r3 : Row) (sorted : Dataset) :
  cell_eq (overall r1) (Some 10) ->
  cell_eq (overall r2) (Some 50) ->
  cell_eq (overall r3) (Some 30) ->
  sort_values overall_score [r1; r2; r3] sorted ->
  tail 1 sorted = [r2].
Proof.
  intros H1 H2 H3 Hsort.
  pose proof (sort_values_perm _ _ _ Hsort) as HP.
  pose proof (sort_values_sorted _ _ _ Hsort) as HS.
  pose proof (Permutation_length HP) as HL.
  destruct sorted as [| a [| b [| c [| d sorted]]]]; try discriminate HL.
  unfold tail. simpl. f_equal.
  assert (Hc : In c [r1; r2; r3])
    by (apply (Permutation_in _ (Permutation_sym HP)); simpl; auto).
  assert (Hr : In r2 [a; b; c])
    by (apply (Permutation_in _ HP); simpl; auto).
  assert (Hle : r2 = c \/ asc_le overall_score r2 c).
  { change [a; b; c] with ([a; b] ++ [c]) in HS.
    simpl in Hr. destruct Hr as [E | [E | [E | []]]]; auto; right;
      apply (sorted_app_inv _ _ _ HS); simpl; auto. }
  destruct Hle as [E | Hle]; [now symmetry |].
  unfold asc_le in Hle. simpl in Hle, Hc.
  destruct (overall r2) as [q2 |] eqn:E2; [| contradiction].
  simpl in H2.
  destruct Hc as [E | [E | [E | []]]].
  - exfalso. subst c.
    destruct (overall r1) as [q1 |]; [| contradiction].
    simpl in H1, Hle. apply Qle_bool_iff in Hle.
    rewrite H1, H2 in Hle. now apply Qle_bool_iff in Hle.
  - now symmetry.
  - exfalso. subst c.
    destruct (overall r3) as [q3 |]; [| contradiction].
    simpl in H3, Hle. apply Qle_bool_iff in Hle.
    rewrite H3, H2 in Hle. now apply Qle_bool_iff in Hle.
Qed.

(** C3, as stated, fails.  On the four rows A, B, C, D with overall scores
    50, 50, 10, 10 the ascending sort returns D, C, B, A: each pair of rows
    with equal scores comes out in the order opposite to the frame's.  A
    stable sort returns C, D, A, B. *)
Lemma C3_ties_counterexample :
  rank tied_pairs overall_score 15 (rev tied_pairs) /\
  map company (rev tied_pairs) = ["D"; "C"; "B"; "A"]%string /\
  map company (rank_stable tied_pairs overall_score 15)
  = ["C"; "D"; "A"; "B"]%string /\
  rev tied_pairs <> rank_stable tied_pairs overall_score 15.
Proof.
  split; [| split; [reflexivity | split; [reflexivity | discriminate]]].
  exists (rev tied_pairs). split; [| reflexivity].
  exists (rev tied_pairs). split; [| split].
  - apply Permutation_rev.
  - repeat constructor.
  - reflexivity.
Qed.

(** C3, amended.  [sort_values(...).tail(limit)] always has a result, the
    stable arrangement being one; every result holds [min limit |D|] rows in
    ascending order of the column (missing values last), and the rows left
    out rank no higher than the rows kept.  The order among equal values is
    not fixed.  On three rows with overall scores 10, 50 and 30 and limit 1
    the result is the row with score 50. *)
Theorem C3_rank_ascending_tail (df : Dataset) (col : column) (limit : nat) :
  rank df col limit (rank_stable df col limit) /\
  (forall out, rank df col limit out ->
     length out = Nat.min limit (length df) /\
     StronglySorted (asc_le col) out /\
     exists rest,
       Permutation df (rest ++ out) /\
       forall r s, In r rest -> In s out -> asc_le col r s) /\
  (forall r1 r2 r3 out,
     cell_eq (overall r1) (Some 10) ->
     cell_eq (overall r2) (Some 50) ->
     cell_eq (overall r3) (Some 30) ->
     rank [r1; r2; r3] overall_score 1 out -> out = [r2]).
Proof.
  split; [| split].
  - exists (stable_sort_asc col df). split; [| reflexivity].
    apply stable_sort_asc_sorts.
  - intros out (sorted & Hsort & ->).
    pose proof (sort_values_perm _ _ _ Hsort) as HP.
    pose proof (sort_values_sorted _ _ _ Hsort) as HS.
    split; [| split].
    + rewrite tail_length. now rewrite (Permutation_length HP).
    + rewrite (tail_split limit sorted) in HS.
      exact (sorted_app_r _ _ _ HS).
    + exists (firstn (length sorted - limit) sorted). split.
      * now rewrite <- tail_split.
      * rewrite (tail_split limit sorted) in HS.
        intros r s. apply (sorted_app_inv _ _ _ HS).
  - intros r1 r2 r3 out H1 H2 H3 (sorted & Hs & ->).
    now apply (last_of_10_50_30 r1 r2 r3).
Qed.

Lemma C3_rank_witness :
  rank three_rows overall_score 1 (rank_stable three_rows overall_score 1) /\
  rank_stable three_rows overall_score 1
  = [row "Y" 50 1 1 1 None None None].
Proof.
  destruct (C3_rank_ascending_tail three_rows overall_score 1)
    as (Hstable & _ & Hexample).
  split; [exact Hstable |].
  apply (Hexample (row "X" 10 1 1 1 None None None)
                  (row "Y" 50 1 1 1 None None None)
                  (row "Z" 30 1 1 1 None None None)).
  - simpl. reflexivity.
  - simpl. reflexivity.
  - simpl. reflexivity.
  - exact Hstable.
Defined.

(** ** The scatter plot *)

Lemma series_length (df : Dataset) (col : column) :
  length (series df col) = length df.
Proof.
  apply length_map.
Qed.

Lemma all_present_none (l : list cell) :
  In NaN l -> all_present l = None.
Proof.
  induction l as [| [q |] t IH]; simpl.
  - contradiction.
  - intros [H | H]; [discriminate |]. now rewrite IH.
  - reflexivity.
Qed.



(** [polyfit] on the two columns of a frame with at least one row. *)
Lemma trend_line_nonempty (df : Dataset) (x y : column) :
  df <> [] ->
  trend_line df x y
  = match all_present (series df x) with
    | None => Raise LinAlgError
    | Some xs =>
        if all_zero xs then Raise LinAlgError
        else match all_present (series df y) with
             | Some ys => Ok (lstsq_line xs ys)
             | None => Ok NoLine
             end
    end.
Proof.
  intros Hne. unfold trend_line, polyfit1.
  destruct (series df x) as [| c t] eqn:Ex.
  - destruct df; [congruence | discriminate].
  - rewrite <- Ex, !series_length, Nat.eqb_refl. reflexivity.
Qed.






(** ** The trend line *)

(** A missing value in either column reaches [polyfit]: no line is fitted
    ([LinAlgError] for a missing abscissa, NaN coefficients for a missing
    ordinate). *)
Lemma trend_line_with_missing_value (df : Dataset) (x y : column) (r : Row) :
  In r df -> get x r = NaN \/ get y r = NaN ->
  forall s i, trend_line df x y <> Ok (Line s i).
Proof.
  intros Hin Hnan s i.
  assert (Hne : df <> []) by (intros ->; exact Hin).
  rewrite (trend_line_nonempty df x y Hne).
  destruct (all_present (series df x)) as [xs |] eqn:Ex; [| discriminate].
  destruct (all_zero xs); [discriminate |].
  destruct Hnan as [H | H].
  - rewrite (all_present_none (series df x)) in Ex; [discriminate |].
    rewrite <- H. unfold series. now apply in_map.
  - rewrite (all_present_none (series df y)); [discriminate |].
    rewrite <- H. unfold series. now apply in_map.
Qed.



(** C2 on the frame whose second row lacks a PE ratio.  The coefficient is
    computed from the two complete rows; [polyfit] receives all three rows
    and fits no line, whereas the line through the two complete rows has
    slope 1/5 and intercept -11. *)
Theorem C2_trend_not_on_filtered_rows :
  (forall sqrt,
     correlation sqrt missing_pe overall_score pe_ratio_ttm
     = corrcoef sqrt [(80, 5); (70, 3)]) /\
  trend_line missing_pe overall_score pe_ratio_ttm = Ok NoLine /\
  (exists slope intercept,
     trend_of_complete_rows missing_pe overall_score pe_ratio_ttm
     = Line slope intercept /\ slope == 1 # 5 /\ intercept == - (11)).
Proof.
  split; [| split].
  - intros sqrt. reflexivity.
  - reflexivity.
  - eexists. eexists. split; [reflexivity |]. split; reflexivity.
Qed.

(** ** The search box *)

Lemma filter_idem {A : Type} (p : A -> bool) (l : list A) :
  filter p (filter p l) = filter p l.
Proof.
  induction l as [| x l IH]; simpl; [reflexivity |].
  destruct (p x) eqn:E; simpl; rewrite ?E, IH; reflexivity.
Qed.

Lemma filter_all {A : Type} (p : A -> bool) (l : list A) :
  (forall x, p x = true) -> filter p l = l.
Proof.
  intros H. induction l as [| x l IH]; simpl; [reflexivity |].
  now rewrite H, IH.
Qed.

(** C7.  Whatever predicate the pattern compiles to, the empty query leaves
    the frame as it is, and filtering the filtered frame again with the same
    query changes nothing (when the pattern yields no predicate, neither
    call yields a frame); this holds for [search] in particular. *)
Theorem C7_search_identity_idempotent
    (engine : string -> option (string -> bool)) (df : Dataset) (q : string) :
  search_with engine df "" = Some df /\
  search_twice engine df q = search_with engine df q /\
  search df "" = Some df /\
  search_twice compile_ignorecase df q = search df q.
Proof.
  assert (H : forall e, search_twice e df q = search_with e df q).
  { intros e. unfold search_twice, search_with.
    destruct (String.eqb q ""); [reflexivity |].
    destruct (e q) as [found |]; [| reflexivity].
    now rewrite filter_idem. }
  repeat split; try reflexivity; apply H.
Qed.

Lemma special_true (c d : ascii) :
  mem_ascii d special_characters = true -> is_special c = false ->
  Ascii.eqb c d = false.
Proof.
  intros Hd Hc. destruct (Ascii.eqb_spec c d) as [-> | _]; [| reflexivity].
  unfold is_special in Hc. congruence.
Qed.

Lemma re_parse_plain (q : string) :
  plain q = true ->
  forall cur, re_parse_from q cur = Some [rev cur ++ literal_atoms q].
Proof.
  induction q as [| c t IH]; simpl; intros Hp cur.
  - unfold literal_atoms. simpl. now rewrite app_nil_r.
  - apply andb_true_iff in Hp. destruct Hp as [Hc Ht].
    apply negb_true_iff in Hc.
    rewrite (special_true c "|"), (special_true c "."), (special_true c "\"), Hc
      by (reflexivity || exact Hc).
    rewrite (IH Ht). simpl. unfold literal_atoms. simpl.
    now rewrite <- app_assoc.
Qed.

Lemma match_here_literal (q s : string) :
  match_here (literal_atoms q) s = true <->
  exists after, lower_string s = (lower_string q ++ after)%string.
Proof.
  revert s. induction q as [| c t IH]; intros s.
  - simpl. split; [intros _; now exists (lower_string s) | reflexivity].
  - destruct s as [| d s']; cbn [literal_atoms list_ascii_of_string map
                                  match_here lower_string atom_matches].
    + split; [discriminate | intros [after H]; discriminate H].
    + fold (literal_atoms t). rewrite andb_true_iff, IH. split.
      * intros [Hc [after H]]. exists after.
        apply Ascii.eqb_eq in Hc. simpl. now rewrite Hc, H.
      * intros [after H]. simpl in H. injection H as Hc H. split.
        -- apply Ascii.eqb_eq. now symmetry.
        -- now exists after.
Qed.

Lemma match_anywhere_literal (q s : string) :
  match_anywhere (literal_atoms q) s = true <-> ci_substring q s.
Proof.
  unfold ci_substring, is_substring.
  induction s as [| d s' IH]; cbn [match_anywhere lower_string].
  - rewrite orb_false_r, match_here_literal. split.
    + intros [after H]. now exists ""%string, after.
    + intros [[| b before] [after H]]; [now exists after | discriminate H].
  - rewrite orb_true_iff, match_here_literal, IH. split.
    + intros [[after H] | [before [after H]]].
      * now exists ""%string, after.
      * exists (String (lower d) before), after. simpl. now rewrite H.
    + intros [[| b before] [after H]].
      * left. now exists after.
      * right. simpl in H. injection H as _ H. now exists before, after.
Qed.

Lemma dot_not_in_A : ~ ci_substring "." "A".
Proof.
  intros [[| b [| b' before]] [after H]]; simpl in H; discriminate H.
Qed.

Lemma pattern_not_in_A : ~ ci_substring any_character_pattern "A".
Proof.
  intros [[| b [| b' before]] [after H]]; simpl in H; discriminate H.
Qed.




Lemma match_anywhere_dot (s : string) :
  match_anywhere [AnyChar] s = has_non_newline s.
Proof.
  induction s as [| c t IH]; simpl; [reflexivity |].
  now rewrite IH, andb_true_r.
Qed.

Lemma any_character_found (s : string) :
  re_search [[AnyChar]; [Lit newline]] s = negb (String.eqb s "").
Proof.
  destruct s as [| c t]; [reflexivity |].
  unfold re_search. simpl.
  destruct (Ascii.eqb_spec c newline) as [-> | _]; simpl.
  - now rewrite orb_true_r.
  - reflexivity.
Qed.

(** C10.  The query is compiled as a pattern.  The query [.] keeps every row
    whose name has a character other than a newline.  Some query with
    special characters ([.|\n]) keeps exactly the rows with a non-empty name,
    and not only those whose name contains the query itself: the company
    named A is kept by either query and contains neither. *)
Theorem C10_query_is_a_pattern :
  (forall df,
     search df "." = Some (filter (fun r => has_non_newline (company r)) df)) /\
  (exists q,
     q <> ""%string /\
     (exists c, mem_ascii c q = true /\ is_special c = true) /\
     (forall df,
        search df q
        = Some (filter (fun r => negb (String.eqb (company r) "")) df)) /\
     (exists df kept r,
        search df q = Some kept /\ In r kept /\
        ~ ci_substring q (company r))) /\
  (exists df kept r,
     search df "." = Some kept /\ In r kept /\
     company r <> ""%string /\ ~ ci_substring "." (company r)).
Proof.
  split; [| split].
  - intros df. unfold search, search_with. simpl. f_equal.
    apply filter_ext. intros r. unfold re_search. simpl.
    now rewrite orb_false_r, match_anywhere_dot.
  - exists any_character_pattern. split; [discriminate |]. split; [| split].
    + exists "."%char. split; reflexivity.
    + intros df. unfold search, search_with. simpl. f_equal.
      apply filter_ext. intros r. apply any_character_found.
    + exists one_row, one_row, (row "A" 80 70 60 75 (Some 5) None None).
      split; [reflexivity |]. split; [simpl; auto |].
      exact pattern_not_in_A.
  - exists one_row, one_row, (row "A" 80 70 60 75 (Some 5) None None).
    split; [reflexivity |]. split; [simpl; auto |].
    split; [discriminate | exact dot_not_in_A].
Qed.

(** ** Loading *)

(** C8, as stated, fails: when the file has been removed after a successful
    load, the memoised frame is returned and the dashboard is built. *)
Lemma C8_memo_counterexample :
  data_csv deleted_after_load = None /\
  main deleted_after_load
  = (deleted_after_load, dashboard two_rows (calculate_statistics two_rows)) /\
  fst (load_data deleted_after_load) = deleted_after_load /\
  snd (load_data deleted_after_load) <> Raise FileNotFoundError /\
  snd (main deleted_after_load) <> error_message missing_file_message.
Proof.
  repeat split; discriminate.
Qed.

(** C8, amended.  When [data.csv] does not exist and no frame is memoised
    from an earlier load, [load_data] raises [FileNotFoundError] and [main]
    shows the error message and nothing else; no statistics are computed
    and nothing is memoised. *)
Theorem C8_missing_file_error_only (w : World) :
  data_csv w = None -> load_data_cache w = None ->
  load_data w = (w, Raise FileNotFoundError) /\
  main w = (w, error_message missing_file_message).
Proof.
  intros Hfile Hmemo. unfold main, load_data. rewrite Hmemo, Hfile.
  split; reflexivity.
Qed.

Lemma C8_missing_file_witness :
  data_csv (mkWorld None None) = None /\
  load_data_cache (mkWorld None None) = None /\
  load_data (mkWorld None None) = (mkWorld None None, Raise FileNotFoundError) /\
  main (mkWorld None None)
  = (mkWorld None None, error_message missing_file_message).
Proof.
  split; [reflexivity |]. split; [reflexivity |].
  apply (C8_missing_file_error_only (mkWorld None None)); reflexivity.
Defined.

(** * Further properties of the code *)

(** ** load_data and main *)

(** Once [load_data] has returned a frame, every later call returns the same
    frame and changes nothing, whatever has become of [data.csv] in the
    meantime (replaced, removed). *)
Theorem load_data_memo_sticks
    (w w1 : World) (df : Dataset) (file : option Dataset) :
  load_data w = (w1, Ok df) ->
  load_data {| data_csv := file; load_data_cache := load_data_cache w1 |}
  = ({| data_csv := file; load_data_cache := load_data_cache w1 |}, Ok df).
Proof.
  unfold load_data.
  destruct (load_data_cache w) as [memo |] eqn:Hm.
  - intros H. injection H as <- <-. simpl. now rewrite Hm.
  - destruct (data_csv w) as [rows |]; intros H; [| discriminate H].
    injection H as <- <-. reflexivity.
Qed.

Lemma load_data_memo_sticks_witness :
  load_data (mkWorld (Some two_rows) None)
  = (mkWorld (Some two_rows) (Some two_rows), Ok two_rows) /\
  load_data (mkWorld (Some three_rows) (Some two_rows))
  = (mkWorld (Some three_rows) (Some two_rows), Ok two_rows).
Proof.
  split; [reflexivity |].
  apply (load_data_memo_sticks (mkWorld (Some two_rows) None)
           (mkWorld (Some two_rows) (Some two_rows)) two_rows
           (Some three_rows)).
  reflexivity.
Defined.


(** Running [main] again in the world it left behind gives the same page and
    the same world: a rerun of the script changes nothing as long as nothing
    changes outside. *)
Theorem main_rerun_stable (w : World) :
  main (fst (main w)) = main w.
Proof.
  unfold main, load_data.
  destruct (load_data_cache w) as [[| r memo] |] eqn:Hm; simpl.
  - now rewrite Hm.
  - now rewrite Hm.
  - destruct (data_csv w) as [[| r rows] |] eqn:Hf; simpl.
    + reflexivity.
    + reflexivity.
    + now rewrite Hm, Hf.
Qed.

(** ** The statistics dictionary *)

Lemma firstn_incl {A : Type} (n : nat) (l : list A) : incl (firstn n l) l.
Proof.
  intros a Ha. rewrite <- (firstn_skipn n l). apply in_or_app. now left.
Qed.

Lemma skipn_incl {A : Type} (n : nat) (l : list A) : incl (skipn n l) l.
Proof.
  intros a Ha. rewrite <- (firstn_skipn n l). apply in_or_app. now right.
Qed.

Lemma nlargest_incl (n : nat) (col : column) (df : Dataset) :
  incl (nlargest n col df) df.
Proof.
  intros r Hr. unfold nlargest in Hr. apply firstn_incl in Hr.
  apply (Permutation_in _ (Permutation_sym (sort_desc_perm col df))).
  exact Hr.
Qed.

(** The dictionary has entries for the four score columns and for no other
    column (a lookup of a financial column is a KeyError); each top list has
    at most three names, all of them names of companies of the frame. *)
Theorem stats_entries (df : Dataset) (col : column) :
  match stats_lookup (calculate_statistics df) col with
  | Some s =>
      In col score_columns /\
      (length (stat_top s) <= 3)%nat /\
      incl (stat_top s) (map company df)
  | None => ~ In col score_columns
  end.
Proof.
  assert (Htop : forall c,
            (length (stat_top (column_statistics df c)) <= 3)%nat /\
            incl (stat_top (column_statistics df c)) (map company df)).
  { intros c. simpl. split.
    - rewrite length_map, nlargest_length. lia.
    - apply incl_map. apply nlargest_incl. }
  destruct col; simpl;
    try (split; [tauto | apply Htop]);
    intros [H | [H | [H | [H | []]]]]; discriminate H.
Qed.

(** ** The average and the missing cells *)

Section AverageOfPresentCells.
Local Open Scope float_scope.

Lemma same_sym (a b : float) :
  Float64.same a b = true -> Float64.same b a = true.
Proof.
  unfold Float64.same. intros H.
  destruct (SFsame_cases _ _ H) as [-> | (s & s' & -> & ->)];
    [apply SFsame_refl | reflexivity].
Qed.

Lemma dropna_length (values : list float) :
  (length (Float64.dropna values) <= length values)%nat.
Proof.
  induction values as [| v t IH]; simpl; [lia |].
  destruct (Float64.notna v); simpl; lia.
Qed.

(** In a column of fewer than 8 rows the missing cells do not count: the
    average of the column is the average of the column from which they have
    been removed. *)
Theorem average_skips_missing_cells (values : list float) :
  (length values < 8)%nat ->
  Float64.same (Float64.mean values) (Float64.mean (Float64.dropna values))
  = true.
Proof.
  intros Hlen.
  destruct (Float64.dropna values) as [| v t] eqn:E.
  - unfold Float64.mean. rewrite E. reflexivity.
  - rewrite <- E.
    assert (Hne : Float64.dropna values <> []) by (rewrite E; discriminate).
    assert (Hidem : Float64.dropna (Float64.dropna values)
                    = Float64.dropna values) by apply filter_idem.
    pose proof (mean_short values Hlen Hne) as H1.
    pose proof (mean_short (Float64.dropna values)) as H2.
    rewrite Hidem in H2.
    pose proof (dropna_length values) as Hle.
    exact (same_trans _ _ _ H1 (same_sym _ _ (H2 ltac:(lia) Hne))).
Qed.

Lemma average_skips_missing_cells_witness :
  (length pe_cells < 8)%nat /\
  Float64.dropna pe_cells = [5; 3] /\
  Float64.same (Float64.mean pe_cells) (Float64.mean (Float64.dropna pe_cells))
  = true.
Proof.
  assert (Hlen : (length pe_cells < 8)%nat) by (simpl; lia).
  split; [exact Hlen |]. split; [reflexivity |].
  exact (average_skips_missing_cells pe_cells Hlen).
Defined.

End AverageOfPresentCells.

(** ** Sorted values *)

Lemma dropna_perm (l l' : list cell) :
  Permutation l l' -> Permutation (dropna l) (dropna l').
Proof.
  induction 1 as [| c l l' _ IH | c d l | l l' l'' _ IH1 _ IH2].
  - constructor.
  - destruct c; simpl; [now apply perm_skip | exact IH].
  - destruct c, d; simpl;
      try apply perm_swap; try apply Permutation_refl.
  - eapply perm_trans; eassumption.
Qed.

Lemma series_perm (df df' : Dataset) (col : column) :
  Permutation df df' -> Permutation (series df col) (series df' col).
Proof.
  apply Permutation_map.
Qed.

Lemma Forall2_Qeq_refl (l : list Q) : Forall2 Qeq l l.
Proof. induction l; constructor; [reflexivity | assumption]. Qed.

Lemma Forall2_Qeq_trans (a b c : list Q) :
  Forall2 Qeq a b -> Forall2 Qeq b c -> Forall2 Qeq a c.
Proof.
  intros H. revert c. induction H as [| x y a b Hxy _ IH]; intros c Hc.
  - inversion Hc. constructor.
  - inversion Hc as [| ? z ? c' Hyz Hbc]; subst. constructor.
    + now rewrite Hxy.
    + now apply IH.
Qed.

Lemma Qinsert_Forall2 (x x' : Q) (l l' : list Q) :
  x == x' -> Forall2 Qeq l l' -> Forall2 Qeq (Qinsert x l) (Qinsert x' l').
Proof.
  intros Hx H. induction H as [| y y' l l' Hy H IH]; simpl.
  - now repeat constructor.
  - rewrite (Qleb_comp x x' Hx y y' Hy).
    destruct (Qle_bool x' y'); repeat constructor; assumption.
Qed.

Ltac qcases :=
  repeat match goal with
  | |- context [Qle_bool ?a ?b] =>
      let E := fresh "E" in destruct (Qle_bool a b) eqn:E; cbn [Qinsert]
  end.

Ltac qprops :=
  repeat match goal with
  | E : Qle_bool _ _ = true |- _ => apply Qle_bool_iff in E
  | E : Qle_bool ?a ?b = false |- _ =>
      assert (b < a)
        by (apply Qnot_le_lt; intros C; apply Qle_bool_iff in C; congruence);
      clear E
  end.

Lemma Qinsert_comm (x y : Q) (s : list Q) :
  Forall2 Qeq (Qinsert x (Qinsert y s)) (Qinsert y (Qinsert x s)).
Proof.
  induction s as [| z t IH]; cbn [Qinsert]; qcases; qprops;
    try (exfalso; lra);
    repeat (constructor; try lra; try (apply Qle_antisym; lra));
    try apply Forall2_Qeq_refl; try exact IH.
Qed.

Lemma Qsort_perm_eq (l l' : list Q) :
  Permutation l l' -> Forall2 Qeq (Qsort l) (Qsort l').
Proof.
  induction 1 as [| x l l' _ IH | x y l | l l' l'' _ IH1 _ IH2]; simpl.
  - constructor.
  - apply Qinsert_Forall2; [reflexivity | exact IH].
  - apply Qinsert_comm.
  - eapply Forall2_Qeq_trans; eassumption.
Qed.

(** ** The ranking chart *)

Lemma asc_leb_refl (a : cell) : asc_leb a a = true.
Proof.
  destruct a as [x |]; simpl; [| reflexivity].
  apply Qle_bool_iff. apply Qle_refl.
Qed.

(** With no more rows than bars, the chart shows every row of the frame. *)
Theorem ranking_shows_every_row_when_few
    (df : Dataset) (col : column) (limit : nat) (out : Dataset) :
  (length df <= limit)%nat -> rank df col limit out ->
  Permutation df out /\ sort_values col df out.
Proof.
  intros Hfew (sorted & Hsort & ->).
  pose proof (sort_values_perm _ _ _ Hsort) as HP.
  unfold tail. rewrite <- (Permutation_length HP).
  replace (length df - limit)%nat with 0%nat by lia.
  simpl. split; assumption.
Qed.

Lemma ranking_shows_every_row_witness :
  (length three_rows <= 15)%nat /\
  rank three_rows overall_score 15 (rank_stable three_rows overall_score 15) /\
  Permutation three_rows (rank_stable three_rows overall_score 15) /\
  sort_values overall_score three_rows
              (rank_stable three_rows overall_score 15).
Proof.
  assert (Hr : rank three_rows overall_score 15
                    (rank_stable three_rows overall_score 15)).
  { exists (stable_sort_asc overall_score three_rows).
    split; [apply stable_sort_asc_sorts | reflexivity]. }
  split; [simpl; lia |]. split; [exact Hr |].
  apply (ranking_shows_every_row_when_few three_rows overall_score 15);
    [simpl; lia | exact Hr].
Defined.

(** The last row of the chart (the bar drawn at the top) is a row of the
    frame above which no row ranks: its score is the largest one, unless it
    has none, rows without a score ranking highest. *)
Theorem ranking_last_bar_ranks_highest
    (df : Dataset) (col : column) (limit : nat) (out : Dataset) :
  df <> [] -> (1 <= limit)%nat -> rank df col limit out ->
  exists shown top,
    out = shown ++ [top] /\ In top df /\
    forall r, In r df -> asc_le col r top.
Proof.
  intros Hne Hlimit (sorted & Hsort & ->).
  pose proof (sort_values_perm _ _ _ Hsort) as HP.
  pose proof (sort_values_sorted _ _ _ Hsort) as HS.
  destruct (exists_last (l := sorted)) as (init & top & ->).
  { intros ->. apply Permutation_sym, Permutation_nil in HP. contradiction. }
  exists (skipn (length (init ++ [top]) - limit) init), top.
  split; [| split].
  - unfold tail. rewrite skipn_app. f_equal.
    rewrite length_app. simpl.
    now replace (length init + 1 - limit - length init)%nat with 0%nat by lia.
  - apply (Permutation_in _ (Permutation_sym HP)).
    apply in_or_app. right. now left.
  - intros r Hr. apply (Permutation_in _ HP) in Hr.
    apply in_app_or in Hr. destruct Hr as [Hr | [<- | []]].
    + apply (sorted_app_inv _ _ _ HS); [exact Hr | now left].
    + apply asc_leb_refl.
Qed.

Lemma ranking_last_bar_witness :
  three_rows <> [] /\ (1 <= 15)%nat /\
  exists shown top,
    rank_stable three_rows overall_score 15 = shown ++ [top] /\
    In top three_rows /\
    forall r, In r three_rows -> asc_le overall_score r top.
Proof.
  split; [discriminate |]. split; [lia |].
  apply (ranking_last_bar_ranks_highest three_rows overall_score 15);
    [discriminate | lia |].
  exists (stable_sort_asc overall_score three_rows).
  split; [apply stable_sort_asc_sorts | reflexivity].
Defined.

(** Rows without a score are put at the end of the chart, in frame order.
    When they are at least as many as the bars, the chart shows only such
    rows, whatever the scores of the others; otherwise it shows all of them
    after the rows that have a score. *)
Theorem ranking_rows_without_score_last
    (df : Dataset) (col : column) (limit : nat) (out : Dataset) :
  rank df col limit out ->
  ((limit <= length (filter (missing_in col) df))%nat ->
   out = tail limit (filter (missing_in col) df)) /\
  ((length (filter (missing_in col) df) <= limit)%nat ->
   exists shown,
     out = shown ++ filter (missing_in col) df /\
     forall r, In r shown -> present_in col r = true).
Proof.
  intros (sorted & (present & HP & _ & ->) & ->).
  unfold tail. rewrite skipn_app, length_app. split; intros Hm.
  - rewrite skipn_all2 by lia. simpl. f_equal. lia.
  - exists (skipn (length present + length (filter (missing_in col) df)
                   - limit) present).
    split.
    + f_equal.
      now replace (length present + length (filter (missing_in col) df)
                   - limit - length present)%nat with 0%nat by lia.
    + intros r Hr. apply skipn_incl in Hr.
      apply (Permutation_in _ (Permutation_sym HP)) in Hr.
      now apply filter_In in Hr.
Qed.

Lemma ranking_rows_without_score_witness :
  rank missing_pe pe_ratio_ttm 1 (rank_stable missing_pe pe_ratio_ttm 1) /\
  rank_stable missing_pe pe_ratio_ttm 1
  = [row "B" 60 50 90 65 None None None].
Proof.
  assert (Hr : rank missing_pe pe_ratio_ttm 1
                    (rank_stable missing_pe pe_ratio_ttm 1)).
  { exists (stable_sort_asc pe_ratio_ttm missing_pe).
    split; [apply stable_sort_asc_sorts | reflexivity]. }
  split; [exact Hr |].
  destruct (ranking_rows_without_score_last missing_pe pe_ratio_ttm 1 _ Hr)
    as [Hall _].
  rewrite Hall; [reflexivity | simpl; lia].
Defined.

(** ** nlargest and rows without a value *)

Lemma insert_desc_before_missing (col : column) (x : Row) (S N : list Row) :
  Forall (fun r => missing_in col r = true) N ->
  insert_desc col x (S ++ N) = insert_desc col x S ++ N.
Proof.
  intros HN. induction S as [| y S IH]; simpl.
  - destruct N as [| y N]; [reflexivity |]. simpl.
    inversion HN as [| ? ? Hy _]; subst.
    unfold missing_in in Hy. destruct (get col y); [discriminate |].
    now destruct (get col x).
  - destruct (cell_ltb (get col x) (get col y)); [| reflexivity].
    simpl. now rewrite IH.
Qed.

Lemma insert_desc_missing (col : column) (x : Row) (S : list Row) :
  missing_in col x = true ->
  Forall (fun r => present_in col r = true) S ->
  insert_desc col x S = S ++ [x].
Proof.
  intros Hx HS. induction S as [| y S IH]; simpl; [reflexivity |].
  inversion HS as [| ? ? Hy HS']; subst.
  unfold missing_in in Hx. unfold present_in in Hy.
  destruct (get col x); [discriminate |].
  destruct (get col y); [| discriminate]. simpl.
  now rewrite IH.
Qed.

Lemma sort_desc_split (col : column) (df : Dataset) :
  sort_desc col df
  = sort_desc col (filter (present_in col) df) ++ filter (missing_in col) df.
Proof.
  induction df as [| x l IH]; [reflexivity |].
  change (sort_desc col (x :: l))
    with (insert_desc col x (sort_desc col l)).
  rewrite IH, insert_desc_before_missing by apply filter_Forall.
  assert (Hm : missing_in col x = negb (present_in col x)) by reflexivity.
  simpl filter. rewrite Hm.
  destruct (present_in col x) eqn:E; cbn [negb].
  - reflexivity.
  - rewrite insert_desc_missing.
    + now rewrite <- app_assoc.
    + exact Hm.
    + apply (Permutation_Forall (sort_desc_perm col _)).
      apply filter_Forall.
Qed.

(** A company without a score enters a top list only when fewer than [n]
    companies have one: with [n] scored companies or more, [nlargest] gives
    what it gives on the scored companies alone, and every row it returns
    has a score. *)
Theorem nlargest_prefers_rows_with_value
    (n : nat) (col : column) (df : Dataset) :
  (n <= length (filter (present_in col) df))%nat ->
  nlargest n col df = nlargest n col (filter (present_in col) df) /\
  forall r, In r (nlargest n col df) -> present_in col r = true.
Proof.
  intros Hn.
  assert (Heq : nlargest n col df
                = nlargest n col (filter (present_in col) df)).
  { unfold nlargest. rewrite sort_desc_split, firstn_app.
    rewrite <- (Permutation_length (sort_desc_perm col _)).
    replace (n - length (filter (present_in col) df))%nat with 0%nat by lia.
    simpl. apply app_nil_r. }
  split; [exact Heq |].
  intros r Hr. rewrite Heq in Hr. apply nlargest_incl in Hr.
  now apply filter_In in Hr.
Qed.

Lemma nlargest_prefers_rows_with_value_witness :
  (2 <= length (filter (present_in pe_ratio_ttm) missing_pe))%nat /\
  nlargest 2 pe_ratio_ttm missing_pe
  = nlargest 2 pe_ratio_ttm (filter (present_in pe_ratio_ttm) missing_pe) /\
  forall r, In r (nlargest 2 pe_ratio_ttm missing_pe) ->
            present_in pe_ratio_ttm r = true.
Proof.
  split; [simpl; lia |].
  apply (nlargest_prefers_rows_with_value 2 pe_ratio_ttm missing_pe).
  simpl. lia.
Defined.

(** ** The ranking chart against the top lists *)

Lemma sorted_app {A : Type} (R : A -> A -> Prop) (a b : list A) :
  StronglySorted R a -> StronglySorted R b ->
  (forall x y, In x a -> In y b -> R x y) ->
  StronglySorted R (a ++ b).
Proof.
  intros Ha Hb Hab. induction Ha as [| x a Ha IH HF]; simpl; [exact Hb |].
  constructor.
  - apply IH. intros u v Hu Hv. apply Hab; [now right | exact Hv].
  - apply Forall_app. split; [exact HF |].
    apply Forall_forall. intros y Hy. apply Hab; [now left | exact Hy].
Qed.

Lemma sorted_rev {A : Type} (R : A -> A -> Prop) (l : list A) :
  StronglySorted (fun a b => R b a) l -> StronglySorted R (rev l).
Proof.
  induction 1 as [| x l HS IH HF]; simpl; [constructor |].
  apply sorted_app; [exact IH | repeat constructor |].
  intros u v Hu [<- | []]. apply in_rev in Hu.
  rewrite Forall_forall in HF. now apply HF.
Qed.

Lemma Qsort_fixes_sorted (v : list Q) : StronglySorted Qle v -> Qsort v = v.
Proof.
  induction 1 as [| a t HS IH HF]; simpl; [reflexivity |].
  fold (Qsort t). rewrite IH.
  destruct t as [| b t]; [reflexivity |]. simpl.
  inversion HF as [| ? ? Hab _]; subst.
  apply Qle_bool_iff in Hab. now rewrite Hab.
Qed.

Lemma sorted_perm_same_values (a b : list Q) :
  StronglySorted Qle a -> StronglySorted Qle b -> Permutation a b ->
  Forall2 Qeq a b.
Proof.
  intros Ha Hb HP.
  rewrite <- (Qsort_fixes_sorted a Ha), <- (Qsort_fixes_sorted b Hb).
  now apply Qsort_perm_eq.
Qed.

Lemma Forall2_Qeq_rev (a b : list Q) :
  Forall2 Qeq a b -> Forall2 Qeq (rev a) (rev b).
Proof.
  induction 1 as [| x y a b Hxy _ IH]; simpl; [constructor |].
  apply Forall2_app; [exact IH | now repeat constructor].
Qed.

Lemma Forall2_Qeq_firstn (n : nat) (a b : list Q) :
  Forall2 Qeq a b -> Forall2 Qeq (firstn n a) (firstn n b).
Proof.
  intros H. revert n. induction H as [| x y a b Hxy _ IH]; intros [| n]; simpl;
    constructor; auto.
Qed.

Lemma Forall2_cells (a b : list Q) :
  Forall2 Qeq a b -> Forall2 cell_eq (map Some a) (map Some b).
Proof.
  induction 1; simpl; constructor; auto.
Qed.

Section Scores.
Variable col : column.

(** The scores of the rows of [l], in order. *)
Let scores (l : list Row) : list Q := dropna (series l col).

Let scored (l : list Row) : Prop := forall r, In r l -> present_in col r = true.

Lemma scored_cells (l : list Row) :
  scored l -> map (get col) l = map Some (scores l).
Proof.
  unfold scored, scores, present_in.
  induction l as [| r l IH]; intros H; simpl; [reflexivity |].
  pose proof (H r (or_introl eq_refl)) as Hr.
  destruct (get col r) as [q |]; [| discriminate]. simpl.
  f_equal. apply IH. intros r' Hr'. apply H. now right.
Qed.

Lemma scores_rev (l : list Row) : scores (rev l) = rev (scores l).
Proof.
  unfold scores, series. rewrite map_rev. generalize (map (get col) l).
  intros c. induction c as [| [q |] c IH]; simpl; [reflexivity | |].
  - rewrite <- IH. clear IH. induction (rev c) as [| [p |] t IHt]; simpl;
      [reflexivity | now rewrite IHt | exact IHt].
  - rewrite <- IH. clear IH. induction (rev c) as [| [p |] t IHt]; simpl;
      [reflexivity | now rewrite IHt | exact IHt].
Qed.

Lemma scores_firstn (n : nat) (l : list Row) :
  scored l -> scores (firstn n l) = firstn n (scores l).
Proof.
  unfold scored, scores, present_in. revert n.
  induction l as [| r l IH]; intros [| n] H; simpl; try reflexivity.
  pose proof (H r (or_introl eq_refl)) as Hr.
  destruct (get col r) as [q |]; [| discriminate]. simpl.
  f_equal. apply IH. intros r' Hr'. apply H. now right.
Qed.

Lemma scores_ascending (l : list Row) :
  scored l -> StronglySorted (asc_le col) l -> StronglySorted Qle (scores l).
Proof.
  unfold scored, scores, present_in. intros H HS.
  induction HS as [| r l HS IH HF]; simpl; [constructor |].
  pose proof (H r (or_introl eq_refl)) as Hr.
  destruct (get col r) as [q |] eqn:Er; [| discriminate]. simpl.
  constructor.
  - apply IH. intros r' Hr'. apply H. now right.
  - clear IH HS. induction HF as [| s l Hs HF IHF]; simpl; [constructor |].
    pose proof (H s (or_intror (or_introl eq_refl))) as Hs'.
    unfold asc_le in Hs. rewrite Er in Hs.
    destruct (get col s) as [p |]; [| discriminate]. simpl.
    constructor.
    + now apply Qle_bool_iff.
    + apply IHF. intros r' [<- | Hr']; [now rewrite Er |].
      apply H. right. now right.
Qed.

Lemma scores_descending (l : list Row) :
  scored l -> StronglySorted (desc_ge col) l ->
  StronglySorted (fun a b => b <= a) (scores l).
Proof.
  unfold scored, scores, present_in. intros H HS.
  induction HS as [| r l HS IH HF]; simpl; [constructor |].
  pose proof (H r (or_introl eq_refl)) as Hr.
  destruct (get col r) as [q |] eqn:Er; [| discriminate]. simpl.
  constructor.
  - apply IH. intros r' Hr'. apply H. now right.
  - clear IH HS. induction HF as [| s l Hs HF IHF]; simpl; [constructor |].
    pose proof (H s (or_intror (or_introl eq_refl))) as Hs'.
    unfold desc_ge in Hs. rewrite Er in Hs.
    destruct (get col s) as [p |]; [| discriminate]. simpl.
    constructor.
    + now apply cell_geb_some.
    + apply IHF. intros r' [<- | Hr']; [now rewrite Er |].
      apply H. right. now right.
Qed.

Lemma scores_perm (l l' : list Row) :
  Permutation l l' -> Permutation (scores l) (scores l').
Proof.
  intros HP. apply dropna_perm. now apply series_perm.
Qed.

Lemma scored_perm (l l' : list Row) :
  Permutation l l' -> scored l -> scored l'.
Proof.
  intros HP H r Hr. apply H.
  now apply (Permutation_in _ (Permutation_sym HP)).
Qed.

(** When every row has a score, the last [n] bars of the ranking chart, read
    from the top, carry the same scores as the [n] rows of [nlargest]. *)
Lemma ranking_scores_of_top (df : Dataset) (n : nat) (out : Dataset) :
  scored df -> rank df col n out ->
  Forall2 cell_eq (map (get col) (rev out))
                  (map (get col) (nlargest n col df)).
Proof.
  intros Hdf (sorted & Hsort & ->).
  pose proof (sort_values_perm _ _ _ Hsort) as HP.
  pose proof (sort_values_sorted _ _ _ Hsort) as HS.
  pose proof (scored_perm _ _ HP Hdf) as Hsorted.
  pose proof (scored_perm _ _ (sort_desc_perm col df) Hdf) as Hdesc.
  assert (Hrev : rev (tail n sorted) = firstn n (rev sorted))
    by (unfold tail; now rewrite firstn_rev).
  rewrite Hrev.
  rewrite (scored_cells (firstn n (rev sorted))),
          (scored_cells (nlargest n col df)).
  - apply Forall2_cells. unfold nlargest.
    rewrite !scores_firstn.
    + apply Forall2_Qeq_firstn. rewrite scores_rev.
      rewrite <- (rev_involutive (scores (sort_desc col df))).
      apply Forall2_Qeq_rev. apply sorted_perm_same_values.
      * now apply scores_ascending.
      * apply sorted_rev. apply scores_descending;
          [exact Hdesc | apply sort_desc_sorted].
      * eapply perm_trans; [apply scores_perm, Permutation_sym, HP |].
        eapply perm_trans; [apply scores_perm, (sort_desc_perm col) |].
        apply Permutation_rev.
    + exact Hdesc.
    + intros r Hr. apply Hsorted. now apply in_rev.
  - intros r Hr. apply Hdesc. now apply firstn_incl in Hr.
  - intros r Hr. apply firstn_incl in Hr. apply Hsorted. now apply in_rev.
Qed.
End Scores.

(** When every row has a score in the column, the last [n] bars of the
    ranking chart, read from the top down, carry the same scores as the [n]
    rows of [nlargest]: the chart and the top list agree on the highest
    scores (the companies may differ where scores tie). *)
Theorem ranking_agrees_with_top
    (df : Dataset) (col : column) (n : nat) (out : Dataset) :
  (forall r, In r df -> present_in col r = true) ->
  rank df col n out ->
  Forall2 cell_eq (map (get col) (rev out))
                  (map (get col) (nlargest n col df)).
Proof.
  apply ranking_scores_of_top.
Qed.

Lemma ranking_agrees_with_top_witness :
  (forall r, In r three_rows -> present_in overall_score r = true) /\
  rank three_rows overall_score 2 (rank_stable three_rows overall_score 2) /\
  Forall2 cell_eq
    (map (get overall_score) (rev (rank_stable three_rows overall_score 2)))
    (map (get overall_score) (nlargest 2 overall_score three_rows)).
Proof.
  assert (Hs : forall r, In r three_rows -> present_in overall_score r = true).
  { intros r [<- | [<- | [<- | []]]]; reflexivity. }
  assert (Hr : rank three_rows overall_score 2
                    (rank_stable three_rows overall_score 2)).
  { exists (stable_sort_asc overall_score three_rows).
    split; [apply stable_sort_asc_sorts | reflexivity]. }
  split; [exact Hs |]. split; [exact Hr |].
  exact (ranking_agrees_with_top three_rows overall_score 2 _ Hs Hr).
Defined.

(** ** The coefficient of the scatter plot *)

Lemma clip_range (r : Q) : -1 <= clip r /\ clip r <= 1.
Proof.
  unfold clip.
  destruct (Qle_bool r (-1)) eqn:E1; [split; discriminate |].
  destruct (Qle_bool 1 r) eqn:E2; [split; discriminate |].
  split.
  - destruct (Qle_bool_total r (-1)) as [H | H]; [congruence |].
    now apply Qle_bool_iff.
  - destruct (Qle_bool_total 1 r) as [H | H]; [congruence |].
    now apply Qle_bool_iff.
Qed.

(** Whatever the square root, a coefficient that is a number lies between
    -1 and 1. *)
Theorem correlation_in_range
    (sqrt : Q -> Q) (df : Dataset) (x y : column) (r : Q) :
  correlation sqrt df x y = Some r -> -1 <= r /\ r <= 1.
Proof.
  unfold correlation, corr, corrcoef.
  destruct (Nat.ltb _ 1); [discriminate |].
  destruct (Nat.leb _ 1); [discriminate |].
  destruct (_ || _); [discriminate |].
  intros H. injection H as <-. apply clip_range.
Qed.

Lemma correlation_in_range_witness :
  exists r, correlation (fun q => q) missing_pe overall_score pe_ratio_ttm
            = Some r /\ -1 <= r /\ r <= 1.
Proof.
  eexists. split; [reflexivity |].
  apply (correlation_in_range (fun q => q) missing_pe overall_score
           pe_ratio_ttm).
  reflexivity.
Defined.





(** ** The search box, continued *)

Lemma filter_comm {A : Type} (p q : A -> bool) (l : list A) :
  filter p (filter q l) = filter q (filter p l).
Proof.
  induction l as [| a l IH]; simpl; [reflexivity |].
  destruct (p a) eqn:Ep, (q a) eqn:Eq; simpl; rewrite ?Ep, ?Eq, IH;
    reflexivity.
Qed.

(** Whatever the pattern engine, two searches can be made in either order:
    filtering with one query and then with another gives the same table as
    filtering with the second and then with the first; and a search only
    removes rows. *)
Theorem searches_commute
    (engine : string -> option (string -> bool)) (df : Dataset)
    (q1 q2 : string) :
  search_then engine df q1 q2 = search_then engine df q2 q1 /\
  forall out, search_with engine df q1 = Some out ->
    incl out df /\ (length out <= length df)%nat.
Proof.
  split.
  - unfold search_then, search_with.
    destruct (String.eqb q1 ""), (String.eqb q2 "");
      destruct (engine q1), (engine q2); simpl; try reflexivity.
    now rewrite filter_comm.
  - unfold search_with. intros out.
    destruct (String.eqb q1 "").
    + intros H. injection H as <-. split; [apply incl_refl | lia].
    + destruct (engine q1) as [f |]; [| discriminate].
      intros H. injection H as <-. split.
      * apply incl_filter.
      * apply filter_length_le.
Qed.

Lemma searches_commute_witness :
  search_then compile_ignorecase two_rows "a" "."
  = search_then compile_ignorecase two_rows "." "a" /\
  exists out,
    search_with compile_ignorecase two_rows "a" = Some out /\
    incl out two_rows /\ (length out <= length two_rows)%nat.
Proof.
  destruct (searches_commute compile_ignorecase two_rows "a" ".")
    as [Hcomm Hout].
  split; [exact Hcomm |].
  eexists. split; [reflexivity |]. apply Hout. reflexivity.
Defined.

(** A query without special characters compiles to the pattern that asks
    for its characters one after the other. *)
Lemma search_plain_filter (df : Dataset) (q : string) :
  plain q = true ->
  search df q
  = Some (filter (fun r => match_anywhere (literal_atoms q) (company r)) df).
Proof.
  intros Hp. unfold search, search_with, compile_ignorecase, re_parse.
  rewrite (re_parse_plain q Hp []). simpl.
  destruct (String.eqb_spec q "") as [-> | _].
  - rewrite filter_all; [reflexivity |].
    intros r. now destruct (company r).
  - f_equal. apply filter_ext. intros r. unfold re_search. simpl.
    apply orb_false_r.
Qed.

Lemma same_letters_same_matches (q q' s : string) :
  lower_string q = lower_string q' ->
  match_anywhere (literal_atoms q) s = match_anywhere (literal_atoms q') s.
Proof.
  intros E. apply eq_true_iff_eq.
  rewrite !match_anywhere_literal. unfold ci_substring. now rewrite E.
Qed.

(** The case of the letters of a query without special characters does not
    matter: two such queries that differ only in it give the same table. *)
Theorem search_ignores_case_of_query (df : Dataset) (q q' : string) :
  plain q = true -> plain q' = true ->
  lower_string q = lower_string q' ->
  search df q = search df q'.
Proof.
  intros Hp Hp' E. rewrite !search_plain_filter by assumption.
  f_equal. apply filter_ext. intros r. now apply same_letters_same_matches.
Qed.

Lemma search_ignores_case_witness :
  plain "b" = true /\ plain "B" = true /\
  lower_string "b" = lower_string "B" /\
  search two_rows "b" = search two_rows "B".
Proof.
  split; [reflexivity |]. split; [reflexivity |]. split; [reflexivity |].
  apply (search_ignores_case_of_query two_rows "b" "B"); reflexivity.
Defined.

Lemma is_substring_trans (a b c : string) :
  is_substring a b -> is_substring b c -> is_substring a c.
Proof.
  intros (p1 & s1 & ->) (p2 & s2 & ->).
  exists (p2 ++ p1)%string, (s1 ++ s2)%string.
  clear. induction p2 as [| ch p2 IH]; simpl.
  - induction p1 as [| ch p1 IH1]; simpl.
    + induction a as [| ch a IHa]; simpl; [reflexivity | now rewrite IHa].
    + now rewrite IH1.
  - now rewrite IH.
Qed.

Lemma filter_of_stronger {A : Type} (p q : A -> bool) (l : list A) :
  (forall a, q a = true -> p a = true) ->
  filter q (filter p l) = filter q l.
Proof.
  intros H. induction l as [| a l IH]; simpl; [reflexivity |].
  destruct (p a) eqn:Ep; simpl.
  - now rewrite IH.
  - destruct (q a) eqn:Eq; [| exact IH].
    rewrite (H a Eq) in Ep. discriminate.
Qed.

(** Extending a query narrows the table: when a query without special
    characters occurs in a second one, the rows kept by the second are among
    the rows kept by the first, and searching the second within the result
    of the first gives the same table as searching it in the whole frame. *)
Theorem longer_query_narrows (df : Dataset) (q q2 : string) :
  plain q = true -> plain q2 = true -> ci_substring q q2 ->
  exists out out2,
    search df q = Some out /\ search df q2 = Some out2 /\
    search out q2 = Some out2 /\ incl out2 out.
Proof.
  intros Hp Hp2 Hsub.
  assert (Himp : forall r,
            match_anywhere (literal_atoms q2) (company r) = true ->
            match_anywhere (literal_atoms q) (company r) = true).
  { intros r H. apply match_anywhere_literal in H.
    apply match_anywhere_literal. unfold ci_substring in *.
    eapply is_substring_trans; eassumption. }
  exists (filter (fun r => match_anywhere (literal_atoms q) (company r)) df),
         (filter (fun r => match_anywhere (literal_atoms q2) (company r)) df).
  split; [now apply search_plain_filter |].
  split; [now apply search_plain_filter |].
  split.
  - rewrite search_plain_filter by assumption. f_equal.
    now apply (filter_of_stronger
                 (fun r => match_anywhere (literal_atoms q) (company r))
                 (fun r => match_anywhere (literal_atoms q2) (company r))).
  - intros r Hr. apply filter_In in Hr. destruct Hr as [Hin Hm].
    apply filter_In. split; [exact Hin | now apply Himp].
Qed.

Lemma longer_query_narrows_witness :
  plain "a" = true /\ plain "Ab" = true /\ ci_substring "a" "Ab" /\
  exists out out2,
    search two_rows "a" = Some out /\ search two_rows "Ab" = Some out2 /\
    search out "Ab" = Some out2 /\ incl out2 out.
Proof.
  assert (Hsub : ci_substring "a" "Ab")
    by (exists ""%string, "b"%string; reflexivity).
  split; [reflexivity |]. split; [reflexivity |]. split; [exact Hsub |].
  apply (longer_query_narrows two_rows "a" "Ab"); [reflexivity | reflexivity |].
  exact Hsub.
Defined.

Lemma upper_is_not_special (d : ascii) :
  is_upper d = true -> is_special d = false /\ is_special (lower d) = false.
Proof.
  destruct d as [[] [] [] [] [] [] [] []]; intros H;
    try discriminate H; split; reflexivity.
Qed.

Lemma lower_of_special (c : ascii) : is_special c = true -> lower c = c.
Proof.
  destruct c as [[] [] [] [] [] [] [] []]; intros H;
    try discriminate H; reflexivity.
Qed.

Lemma special_matches_itself_only (c d : ascii) :
  is_special c = true -> Ascii.eqb (lower c) (lower d) = Ascii.eqb c d.
Proof.
  intros Hc. rewrite (lower_of_special c Hc).
  destruct (is_upper d) eqn:Eu.
  - destruct (upper_is_not_special d Eu) as [Hd Hl].
    destruct (Ascii.eqb_spec c (lower d)) as [E | _];
      [rewrite <- E in Hl; congruence |].
    destruct (Ascii.eqb_spec c d) as [E | _];
      [rewrite <- E in Hd; congruence | reflexivity].
  - unfold lower. now rewrite Eu.
Qed.

Lemma match_anywhere_escaped (c : ascii) (s : string) :
  is_special c = true -> match_anywhere [Lit c] s = mem_ascii c s.
Proof.
  intros Hc. induction s as [| d s IH]; simpl; [reflexivity |].
  now rewrite IH, andb_true_r, special_matches_itself_only.
Qed.

(** A special character behind a backslash is searched for as it is: the
    query made of a backslash and a special character keeps exactly the rows
    whose name contains that character. *)
Theorem escaped_special_is_searched_literally (df : Dataset) (c : ascii) :
  is_special c = true ->
  search df (String "\" (String c ""))
  = Some (filter (fun r => mem_ascii c (company r)) df).
Proof.
  intros Hc. unfold search, search_with, compile_ignorecase, re_parse.
  cbn [String.eqb Ascii.eqb re_parse_from]. simpl Ascii.eqb.
  cbn [re_parse_from]. rewrite Hc. simpl. f_equal.
  apply filter_ext. intros r. unfold re_search. simpl.
  rewrite orb_false_r. now apply match_anywhere_escaped.
Qed.

Lemma escaped_special_witness :
  is_special "." = true /\
  search one_row "\." = Some (filter (fun r => mem_ascii "." (company r)) one_row).
Proof.
  split; [reflexivity |].
  apply (escaped_special_is_searched_literally one_row "."). reflexivity.
Defined.
